(** * kcidb-io: abstract schema versions ([kcidb_io/schema/abstract.py])

    A shallow embedding of the [MetaVersion] metaclass and of the [Version]
    class methods (classification, validation, counting, upgrading and
    merging of datasets along a lineage of schema versions), followed by the
    properties of the engine.

    Conventions of the embedding:
    - a dataset is the Python [dict] the code indexes and updates: a finite
      map from keys to JSON values;
    - Python exceptions are values of [exn]; a call either returns ([OK]) or
      raises ([Raise]);
    - datasets are values and [deepcopy] is the identity on them: the copy
      flags are carried, and this is the code for the default flags, and
      with copying off for arguments that are distinct objects met once; a
      dataset object mutated in place and read again (the target passed
      among its own sources with [copy_target=False]) is not modelled;
    - every invocation of a version's [_inherit] is appended to a log, so
      that the order and number of invocations can be stated. *)

From Stdlib Require Import ZArith.
From stdpp Require Import base option list sorting strings gmap fin_maps.

#[local] Set Warnings "-register-all".

Local Open Scope Z_scope.
Local Open Scope string_scope.
Local Open Scope list_scope.

(** ** Python values and exceptions *)

(** The JSON fragment of Python values (floats are left out). *)
Inductive value : Type :=
| VNone
| VBool (b : bool)
| VInt (z : Z)
| VStr (s : string)
| VList (l : list value)
| VDict (d : list (string * value)).

(** What [jsonschema] reports about a failed validation. *)
Record validation_error : Type := {
  message : string;
  path : list string
}.

Inductive exn : Type :=
| ValidationError (e : validation_error)
| AssertionError
| AttributeError
| TypeError
| NotImplementedError.

Inductive result (A : Type) : Type :=
| OK (a : A)
| Raise (e : exn).
Arguments OK {A} a.
Arguments Raise {A} e.

#[global] Instance result_ret : MRet result := fun A a => OK a.
#[global] Instance result_bind : MBind result := fun A B f r =>
  match r with
  | OK a => f a
  | Raise e => Raise e
  end.

(** [assert c] *)
Definition py_assert (c : bool) : result unit :=
  if c then OK tt else Raise AssertionError.

(** The code points of a string, which holds the bytes of its UTF-8
    encoding: every byte but the continuation bytes [10xxxxxx]. *)
Fixpoint code_points (s : string) : nat :=
  match s with
  | EmptyString => O
  | String (Ascii.Ascii _ _ _ _ _ _ b6 b7) rest =>
      if b7 && negb b6 then code_points rest else S (code_points rest)
  end.

(** [len(v)] *)
Definition py_len (v : value) : result Z :=
  match v with
  | VStr s => OK (Z.of_nat (code_points s))
  | VList l => OK (Z.of_nat (length l))
  | VDict d => OK (Z.of_nat (length d))
  | VNone | VBool _ | VInt _ => Raise TypeError
  end.

(** [a + b] *)
Definition py_add (a b : value) : result value :=
  match a, b with
  | VList x, VList y => OK (VList (x ++ y))
  | VStr x, VStr y => OK (VStr (x +:+ y))
  | VInt x, VInt y => OK (VInt (x + y))
  | VInt x, VBool y => OK (VInt (x + Z.b2z y))
  | VBool x, VInt y => OK (VInt (Z.b2z x + y))
  | VBool x, VBool y => OK (VInt (Z.b2z x + Z.b2z y))
  | _, _ => Raise TypeError
  end.

(** [copy.deepcopy]: datasets are values. *)
Definition deepcopy {A : Type} (a : A) : A := a.

(** ** Version classes *)

(** A concrete schema version: a class derived, directly or not, from the
    abstract [Version].  [cid] is the identity of the class object (what
    [is] compares); [base] is [__bases__[0]], with [None] standing for the
    abstract [Version] itself, whose own base is [ABC].  [major], [minor],
    [json], [tree] and [_inherit] are the class's own attributes (the
    metaclass insists on that); [_get_version] is the method the class
    resolves to.  It returns the declared major and minor numbers, or [None]
    for the documented [(None, None)]. *)
Inductive Version : Type := Class {
  cid : nat;
  major : Z;
  minor : Z;
  json : value;
  tree : list (string * list string);
  _get_version : gmap string value -> option (Z * Z);
  _inherit : gmap string value -> result (gmap string value);
  base : option Version
}.

(** [cls is other] *)
Definition is_ (cls other : Version) : bool := Nat.eqb (cid cls) (cid other).

(** [MetaVersion.previous] *)
Definition previous (cls : Version) : option Version := base cls.

(** [MetaVersion.lineage]: this version first, the first version last. *)
Fixpoint lineage (cls : Version) : list Version :=
  cls :: match base cls with
         | Some b => lineage b
         | None => []
         end.

(** [issubclass(cls, other)]: [other] is [cls] or one of its bases. *)
Fixpoint issubclass (cls other : Version) : bool :=
  is_ cls other ||
  match base cls with
  | Some b => issubclass b other
  | None => false
  end.

(** The comparison operators of [MetaVersion]. *)
Definition __le__ (cls other : Version) : result bool :=
  if negb (issubclass cls other) && negb (issubclass other cls)
  then Raise NotImplementedError
  else OK (issubclass other cls).

Definition __ge__ (cls other : Version) : result bool :=
  if negb (issubclass cls other) && negb (issubclass other cls)
  then Raise NotImplementedError
  else OK (issubclass cls other).

Definition __lt__ (cls other : Version) : result bool :=
  if negb (issubclass cls other) && negb (issubclass other cls)
  then Raise NotImplementedError
  else OK (issubclass other cls && negb (is_ cls other)).

Definition __gt__ (cls other : Version) : result bool :=
  if negb (issubclass cls other) && negb (issubclass other cls)
  then Raise NotImplementedError
  else OK (issubclass cls other && negb (is_ cls other)).

(** [cls.is_compatible_exactly(data)].  When nothing is declared the major
    number is [None], [major == cls.major] is false and [and] stops there. *)
Definition is_compatible_exactly (cls : Version) (data : gmap string value) : bool :=
  match _get_version cls data with
  | Some (major', minor') => Z.eqb major' (major cls) && Z.leb minor' (minor cls)
  | None => false
  end.

(** The loop of [get_exactly_compatible] over the versions still to visit. *)
Fixpoint first_compatible (versions : list Version) (data : gmap string value)
  : option Version :=
  match versions with
  | [] => None
  | version :: rest =>
      if is_compatible_exactly version data then Some version
      else first_compatible rest data
  end.

(** [cls.get_exactly_compatible(data)] *)
Definition get_exactly_compatible (cls : Version) (data : gmap string value)
  : option Version :=
  first_compatible (lineage cls) data.

(** [cls.is_compatible(data)] *)
Definition is_compatible (cls : Version) (data : gmap string value) : bool :=
  bool_decide (get_exactly_compatible cls data ≠ None).

(** [sum(len(data[k]) for k in keys if k and k in data)], from [acc]. *)
Fixpoint sum_len (data : gmap string value) (keys : list string) (acc : Z)
  : result Z :=
  match keys with
  | [] => OK acc
  | k :: rest =>
      if negb (String.eqb k "") then
        match data !! k with
        | Some v => n ← py_len v; sum_len data rest (acc + n)
        | None => sum_len data rest acc
        end
      else sum_len data rest acc
  end.

(** The inner loop of [merge]: for every name of the tree the source has,
    [target[name] = target.get(name, []) + source[name]]. *)
Fixpoint merge_obj_lists (names : list string) (target source : gmap string value)
  : result (gmap string value) :=
  match names with
  | [] => OK target
  | obj_list_name :: rest =>
      match source !! obj_list_name with
      | Some records =>
          merged ← py_add (default (VList []) (target !! obj_list_name)) records;
          merge_obj_lists rest (<[obj_list_name := merged]> target) source
      | None => merge_obj_lists rest target source
      end
  end.

(** [issubclass(a, b)] on what [get_exactly_compatible] returned: [None] is
    not a class. *)
Definition py_issubclass (a b : option Version) : result bool :=
  match a, b with
  | Some a, Some b => OK (issubclass a b)
  | _, _ => Raise TypeError
  end.

(** ** Computations that invoke [_inherit]

    A computation takes the log of the invocations made so far and returns
    its outcome with the extended log. *)
Definition M (A : Type) : Type := list Version -> result A * list Version.

#[global] Instance M_ret : MRet M := fun A a log => (OK a, log).
#[global] Instance M_bind : MBind M := fun A B f m log =>
  match m log with
  | (OK a, log') => f a log'
  | (Raise e, log') => (Raise e, log')
  end.

Definition lift {A : Type} (r : result A) : M A := fun log => (r, log).

(** [version._inherit(data)], logged. *)
Definition call_inherit (version : Version) (data : gmap string value)
  : M (gmap string value) :=
  fun log => (_inherit version data, log ++ [version]).

(** [for x in xs: acc = body(acc, x)] *)
Fixpoint for_each {A B : Type} (body : A -> B -> M A) (acc : A) (xs : list B) : M A :=
  match xs with
  | [] => mret acc
  | x :: rest => acc' ← body acc x; for_each body acc' rest
  end.

(** ** A small lineage to run the engine on

    Three versions over the same collections, a version extractor reading
    [data["version"]], and a validator for a fragment of JSON schema: the
    properties listed under ["arrays"] must be lists when present, and
    ["additionalProperties": false] forbids any other property but
    ["version"]. *)
Module Toy.

Fixpoint assoc (k : string) (d : list (string * value)) : option value :=
  match d with
  | [] => None
  | (k', v) :: rest => if String.eqb k k' then Some v else assoc k rest
  end.

Definition get_version (data : gmap string value) : option (Z * Z) :=
  match data !! "version" with
  | Some (VDict d) =>
      match assoc "major" d, assoc "minor" d with
      | Some (VInt major'), Some (VInt minor') => Some (major', minor')
      | _, _ => None
      end
  | _ => None
  end.

Definition version_of (major' minor' : Z) : value :=
  VDict [("major", VInt major'); ("minor", VInt minor')].

Definition names_of (v : option value) : list string :=
  match v with
  | Some (VList names) =>
      omap (fun n => match n with VStr k => Some k | _ => None end) names
  | _ => []
  end.

Definition is_array_or_absent (v : option value) : bool :=
  match v with
  | None | Some (VList _) => true
  | Some _ => false
  end.

Definition jsonschema_validate (schema : value) (data : gmap string value)
  : option validation_error :=
  match schema with
  | VDict fields =>
      let arrays := names_of (assoc "arrays" fields) in
      let closed :=
        match assoc "additionalProperties" fields with
        | Some (VBool false) => true
        | _ => false
        end in
      if negb (forallb (fun k => is_array_or_absent (data !! k)) arrays)
      then Some {| message := "is not of type 'array'"; path := [] |}
      else if closed &&
              negb (bool_decide (dom data ⊆ list_to_set ("version" :: arrays)))
      then Some {| message := "Additional properties are not allowed";
                   path := [] |}
      else None
  | _ => None
  end.

Definition the_tree : list (string * list string) :=
  [("", ["checkouts"]); ("checkouts", ["builds"]); ("builds", [])].

Definition schema (title : string) (closed : bool) : value :=
  VDict ([("title", VStr title);
          ("arrays", VList [VStr "checkouts"; VStr "builds"])] ++
         if closed then [("additionalProperties", VBool false)] else []).

(** [_inherit] of a toy version: stamp the data with the version. *)
Definition stamp (major' minor' : Z) (data : gmap string value)
  : result (gmap string value) :=
  OK (<["version" := version_of major' minor']> data).

(** A lineage with closed schemas. *)
Definition V1 : Version :=
  {| cid := 1; major := 1; minor := 0; json := schema "v1" true;
     tree := the_tree; _get_version := get_version; _inherit := stamp 1 0;
     base := None |}.
Definition V2 : Version :=
  {| cid := 2; major := 2; minor := 1; json := schema "v2" true;
     tree := the_tree; _get_version := get_version; _inherit := stamp 2 1;
     base := Some V1 |}.
Definition V3 : Version :=
  {| cid := 3; major := 3; minor := 0; json := schema "v3" true;
     tree := the_tree; _get_version := get_version; _inherit := stamp 3 0;
     base := Some V2 |}.

(** A sibling of [V2], and a version whose schema is open. *)
Definition V2' : Version :=
  {| cid := 4; major := 2; minor := 0; json := schema "v2'" true;
     tree := the_tree; _get_version := get_version; _inherit := stamp 2 0;
     base := Some V1 |}.
Definition W1 : Version :=
  {| cid := 5; major := 1; minor := 0; json := schema "w1" false;
     tree := the_tree; _get_version := get_version; _inherit := stamp 1 0;
     base := None |}.

Definition record (id : string) : value := VDict [("id", VStr id)].

Definition data1 : gmap string value :=
  {[ "version" := version_of 1 0; "checkouts" := VList [record "c1"] ]}.
Definition data2 : gmap string value :=
  {[ "version" := version_of 2 0; "checkouts" := VList [record "c2"];
     "builds" := VList [record "b1"; record "b2"] ]}.
Definition rooted : gmap string value :=
  {[ "version" := version_of 1 0; "" := VList [record "r"];
     "checkouts" := VList [record "c3"] ]}.
Definition unsized : gmap string value :=
  {[ "version" := version_of 1 0; "checkouts" := VInt 5 ]}.
Definition unparseable : gmap string value :=
  {[ "version" := VStr "one"; "checkouts" := VInt 5 ]}.

End Toy.

Section Engine.

(** [kcidb_io.misc.LIGHT_ASSERTS] and [jsonschema.validate] (with the draft 7
    format checker) live outside this module: the former is a flag, the
    latter answers [None] when the instance adheres to the schema and the
    error it raises otherwise. *)
Variable LIGHT_ASSERTS : bool.
Variable jsonschema_validate : value -> gmap string value -> option validation_error.

(** [cls.validate_exactly(data)] *)
Definition validate_exactly (cls : Version) (data : gmap string value)
  : result (gmap string value) :=
  match jsonschema_validate (json cls) data with
  | Some e => Raise (ValidationError e)
  | None => OK data
  end.

(** [cls.is_valid_exactly(data)] *)
Definition is_valid_exactly (cls : Version) (data : gmap string value) : result bool :=
  match validate_exactly cls data with
  | OK _ => OK true
  | Raise (ValidationError _) => OK false
  | Raise e => Raise e
  end.

(** [cls.validate(data)] *)
Definition validate (cls : Version) (data : gmap string value)
  : result (gmap string value) :=
  let exactly_compatible := get_exactly_compatible cls data in
  validate_exactly (default cls exactly_compatible) data.

(** [cls.is_valid(data)] *)
Definition is_valid (cls : Version) (data : gmap string value) : result bool :=
  match validate cls data with
  | OK _ => OK true
  | Raise (ValidationError _) => OK false
  | Raise e => Raise e
  end.

(** [assert LIGHT_ASSERTS or c] *)
Definition assert_light (c : result bool) : result unit :=
  if LIGHT_ASSERTS then OK tt else b ← c; py_assert b.

(** [cls.new()] *)
Definition new (cls : Version) : result (gmap string value) :=
  let data : gmap string value :=
    {[ "version" := VDict [("major", VInt (major cls));
                           ("minor", VInt (minor cls))] ]} in
  assert_light (is_valid_exactly cls data);;
  OK data.

(** [cls.count(data)] *)
Definition count (cls : Version) (data : gmap string value) : result Z :=
  assert_light (is_valid cls data);;
  match get_exactly_compatible cls data with
  | Some version => sum_len data (tree version).*1 0
  | None => Raise AttributeError
  end.

(** The first loop of [upgrade]: [Some newer_versions] when it breaks at a
    compatible version, [None] when it runs into its [else]. *)
Fixpoint find_anchor (versions : list Version) (data : gmap string value)
    (newer_versions : list Version) : result (option (list Version)) :=
  match versions with
  | [] => OK None
  | version :: rest =>
      if is_compatible_exactly version data then
        assert_light (is_valid_exactly version data);;
        OK (Some newer_versions)
      else find_anchor rest data (version :: newer_versions)
  end.

(** The body of the second loop of [upgrade]. *)
Definition inherit_step (data : gmap string value) (version : Version)
  : M (gmap string value) :=
  data ← call_inherit version data;
  lift (assert_light (is_valid_exactly version data));;
  mret data.

(** [cls.upgrade(data, copy)].  The [return None] behind [assert False] is
    never reached. *)
Definition upgrade (cls : Version) (data : gmap string value) (copy : bool)
  : M (gmap string value) :=
  let data := if copy then deepcopy data else data in
  found ← lift (find_anchor (lineage cls) data []);
  match found with
  | Some newer_versions => for_each inherit_step data newer_versions
  | None =>
      lift (validate_exactly cls data);;
      lift (Raise AssertionError)
  end.

(** The body of the loop of [merge] over the sources. *)
Definition merge_source (cls : Version) (copy_sources : bool)
    (acc : gmap string value * option Version) (source : gmap string value)
  : M (gmap string value * option Version) :=
  let '(target, target_version) := acc in
  lift (assert_light (is_valid cls source));;
  let source := if copy_sources then deepcopy source else source in
  let source_version := get_exactly_compatible cls source in
  newer ← lift (py_issubclass source_version target_version);
  match source_version, target_version with
  | Some source_version, Some target_version =>
      '(target_version, target, source) ←
        (if newer : bool then
           target ← upgrade source_version target false;
           mret (source_version, target, source)
         else
           source ← upgrade target_version source false;
           mret (target_version, target, source));
      target ← lift (merge_obj_lists (tree target_version).*1 target source);
      mret (target, Some target_version)
  | _, _ => lift (Raise TypeError)
  end.

(** [cls.merge(target, sources, copy_target, copy_sources)] *)
Definition merge (cls : Version) (target : gmap string value)
    (sources : list (gmap string value)) (copy_target copy_sources : bool)
  : M (gmap string value) :=
  lift (assert_light (is_valid cls target));;
  let target := if copy_target then deepcopy target else target in
  let target_version := get_exactly_compatible cls target in
  '(target, target_version) ←
    for_each (merge_source cls copy_sources) (target, target_version) sources;
  lift (assert_light
          match target_version with
          | Some target_version => is_valid_exactly target_version target
          | None => Raise AttributeError
          end);;
  mret target.



(** ** Notions the properties are stated with *)

(** [A] is [B] itself or one of its ancestors, along the [base] links. *)
Inductive ancestor_or_self (A : Version) : Version -> Prop :=
| aos_self B : cid A = cid B -> ancestor_or_self A B
| aos_base B P : base B = Some P -> ancestor_or_self A P -> ancestor_or_self A B.

(** [D] is valid at [V]: it declares a version exactly compatible with [V]
    and adheres to the schema of [V]. *)
Definition valid_at (V : Version) (D : gmap string value) : Prop :=
  is_compatible_exactly V D = true /\ jsonschema_validate (json V) D = None.

(** The lists [count] is meant to measure: the non-root names of a tree
    the dataset has. *)
Definition counted (D : gmap string value) (names : list string) : list string :=
  filter (fun k => k <> "" /\ is_Some (D !! k)) names.

Definition records_of (D : gmap string value) (k : string) : list value :=
  match D !! k with
  | Some (VList l) => l
  | _ => []
  end.

Definition total_length (D : gmap string value) (names : list string) : Z :=
  foldr Z.add 0 ((fun k => Z.of_nat (length (records_of D k))) <$> names).

(** What [MetaVersion.__init__] asserts of a concrete version class; the
    abstract [Version] has major number 0 and no schema. *)
Definition MetaVersion_init (cls : Version) : Prop :=
  0 <= major cls /\
  major cls > from_option major 0 (base cls) /\
  0 <= minor cls /\
  (exists d, json cls = VDict d) /\
  Some (json cls) <> (json <$> base cls) /\
  "" ∈ (tree cls).*1.

(** A lineage as Python builds it: every class went through the metaclass,
    the classes are distinct objects, every [tree] is a [dict] (no key
    twice), and all of them read the declared version with the same
    [_get_version]. *)
Definition well_formed (V : Version) : Prop :=
  (forall W, W ∈ lineage V -> MetaVersion_init W) /\
  NoDup (cid <$> lineage V) /\
  (forall W, W ∈ lineage V -> NoDup (tree W).*1) /\
  (forall W, W ∈ lineage V -> forall d, _get_version W d = _get_version V d).

(** The contract of [_inherit]: data adhering to the previous version is
    converted into data adhering to this one. *)
Definition inherit_contract (V : Version) : Prop :=
  forall W P d,
    W ∈ lineage V -> base W = Some P -> valid_at P d ->
    exists d', _inherit W d = OK d' /\ valid_at W d'.

(** What the schemas of a lineage are expected to say of the collections:
    a dataset valid at a version holds a list under every name of the
    version's tree it has, and stays valid when the lists of another valid
    dataset are appended. *)
Definition lists_contract (V : Version) : Prop :=
  forall W d k,
    W ∈ lineage V -> valid_at W d -> k ∈ (tree W).*1 ->
    d !! k = None \/ exists l, d !! k = Some (VList l).

Definition merge_closed (V : Version) : Prop :=
  forall W t s r,
    W ∈ lineage V -> valid_at W t -> valid_at W s ->
    merge_obj_lists (tree W).*1 t s = OK r -> valid_at W r.

(** What [target[name]] is after a source was merged in along [names]. *)
Definition merged_lookup (names : list string) (target source : gmap string value)
    (k : string) : option value :=
  if decide (k ∈ names /\ is_Some (source !! k))
  then Some (VList (records_of target k ++ records_of source k))
  else target !! k.

(** * Properties *)

(** ** The lineage and the order of versions *)


Lemma lineage_unfold cls :
  lineage cls = cls :: match base cls with Some b => lineage b | None => [] end.
Proof. by destruct cls. Qed.

Lemma issubclass_unfold cls other :
  issubclass cls other =
  is_ cls other || match base cls with Some b => issubclass b other | None => false end.
Proof. by destruct cls. Qed.

Lemma is_true_iff a b : is_ a b = true <-> cid b = cid a.
Proof. unfold is_. rewrite Nat.eqb_eq. naive_solver. Qed.

(** Induction along the [base] links. *)
Lemma Version_base_ind (P : Version -> Prop) :
  (forall cls, (forall b, base cls = Some b -> P b) -> P cls) ->
  forall cls, P cls.
Proof.
  intros step. fix IH 1. intros cls. apply step.
  destruct cls as [? ? ? ? ? ? ? [b|]]; simpl; intros b' Hb.
  - assert (P b) as Pb by apply IH. congruence.
  - discriminate.
Qed.

Lemma issubclass_spec B A : issubclass B A = true <-> ancestor_or_self A B.
Proof.
  induction B as [B IH] using Version_base_ind.
  rewrite issubclass_unfold, orb_true_iff, is_true_iff. split.
  - intros [Heq | Hb]; [by apply aos_self|].
    destruct (base B) as [P|] eqn:HP; [|done].
    apply (aos_base _ _ P HP). by apply IH.
  - inversion 1 as [? Heq | ? P HP Hanc]; subst; [by left|]. right.
    rewrite HP. by apply IH.
Qed.

Lemma is_sym a b : is_ a b = is_ b a.
Proof. unfold is_. apply Nat.eqb_sym. Qed.

Lemma issubclass_false B A : issubclass B A = false <-> ~ ancestor_or_self A B.
Proof. rewrite <- issubclass_spec. by destruct (issubclass B A). Qed.

Lemma gt_lt_swap A B : __gt__ A B = __lt__ B A.
Proof.
  unfold __gt__, __lt__.
  by rewrite (is_sym B A), (andb_comm (negb (issubclass B A))).
Qed.

(** C9: [A <= B] answers true exactly when [A] is [B] or an ancestor of [B];
    [>=], [<] and [>] follow the same order (the strict ones leaving out
    [A is B]); every operator raises [NotImplementedError], and returns no
    boolean, exactly when neither version is an ancestor of the other. *)
Theorem comparison_follows_lineage (A B : Version) :
  (__le__ A B = OK true <-> ancestor_or_self A B) /\
  (__le__ A B = OK false <-> ancestor_or_self B A /\ ~ ancestor_or_self A B) /\
  (__lt__ A B = OK true <-> ancestor_or_self A B /\ cid A <> cid B) /\
  __ge__ A B = __le__ B A /\
  __gt__ A B = __lt__ B A /\
  (__le__ A B = Raise NotImplementedError <->
     ~ ancestor_or_self A B /\ ~ ancestor_or_self B A) /\
  (__lt__ A B = Raise NotImplementedError <->
     ~ ancestor_or_self A B /\ ~ ancestor_or_self B A) /\
  (forall e, __le__ A B = Raise e \/ __lt__ A B = Raise e ->
     e = NotImplementedError).
Proof.
  unfold __le__, __ge__, __lt__, __gt__.
  rewrite <- !issubclass_false, <- !issubclass_spec, (is_sym B A).
  assert (is_ A B = true <-> cid A = cid B) as Hid
    by (rewrite is_true_iff; naive_solver).
  destruct (issubclass A B) eqn:HAB, (issubclass B A) eqn:HBA,
    (is_ A B) eqn:HI; simpl; intuition (try congruence).
  all: match goal with
       | H : _ \/ _ |- _ => destruct H; congruence
       end.
Qed.

(** ** Classification *)

(** C3: [is_compatible_exactly] answers true exactly when the declared major
    number is the version's and the declared minor number is at most the
    version's; a dataset declaring a strictly lower minor number within the
    same major one is accepted. *)
Theorem is_compatible_exactly_iff (V : Version) (D : gmap string value) :
  (is_compatible_exactly V D = true <->
     exists major' minor',
       _get_version V D = Some (major', minor') /\
       major' = major V /\ minor' <= minor V) /\
  (forall minor',
     _get_version V D = Some (major V, minor') -> minor' < minor V ->
     is_compatible_exactly V D = true).
Proof.
  unfold is_compatible_exactly. split.
  - destruct (_get_version V D) as [[mj mn]|]; split.
    + rewrite andb_true_iff, Z.eqb_eq, Z.leb_le. intros []. by exists mj, mn.
    + intros (? & ? & [= <- <-] & ? & ?).
      by rewrite andb_true_iff, Z.eqb_eq, Z.leb_le.
    + done.
    + by intros (? & ? & ? & _).
  - intros mn -> Hlt.
    rewrite andb_true_iff, Z.eqb_eq, Z.leb_le. lia.
Qed.

Lemma is_compatible_exactly_iff_witness :
  is_compatible_exactly Toy.V2 Toy.data2 = true.
Proof.
  apply (is_compatible_exactly_iff Toy.V2 Toy.data2) with (minor' := 0).
  - reflexivity.
  - simpl. lia.
Defined.

Lemma first_compatible_Some versions D W :
  first_compatible versions D = Some W <->
  exists newer older,
    versions = newer ++ W :: older /\
    is_compatible_exactly W D = true /\
    Forall (fun N => is_compatible_exactly N D = false) newer.
Proof.
  induction versions as [|v rest IH]; simpl.
  - split; [done|]. intros (newer & ? & Heq & _). by destruct newer.
  - destruct (is_compatible_exactly v D) eqn:Hv.
    + split.
      * intros [= <-]. by exists [], rest.
      * intros ([|n newer] & older & Heq & HW & Hnewer).
        -- by injection Heq as -> _.
        -- injection Heq as <- _. apply Forall_cons in Hnewer as [? _].
           congruence.
    + rewrite IH. split.
      * intros (newer & older & -> & HW & Hnewer).
        exists (v :: newer), older. split_and!; [done..|by constructor].
      * intros ([|n newer] & older & Heq & HW & Hnewer).
        -- injection Heq as <- _. congruence.
        -- injection Heq as <- ->. apply Forall_cons in Hnewer as [_ ?].
           by exists newer, older.
Qed.

Lemma first_compatible_None versions D :
  first_compatible versions D = None <->
  Forall (fun W => is_compatible_exactly W D = false) versions.
Proof.
  induction versions as [|v rest IH]; simpl; [by split|].
  rewrite Forall_cons.
  destruct (is_compatible_exactly v D); [|rewrite IH]; intuition congruence.
Qed.




(** ** Validation *)

Lemma validate_exactly_cases W D :
  (jsonschema_validate (json W) D = None /\ validate_exactly W D = OK D) \/
  (exists err, jsonschema_validate (json W) D = Some err /\
               validate_exactly W D = Raise (ValidationError err)).
Proof.
  unfold validate_exactly.
  destruct (jsonschema_validate (json W) D) as [err|]; eauto.
Qed.

Lemma is_valid_exactly_true W D :
  jsonschema_validate (json W) D = None -> is_valid_exactly W D = OK true.
Proof. unfold is_valid_exactly, validate_exactly. by intros ->. Qed.

Lemma is_valid_exactly_false W D err :
  jsonschema_validate (json W) D = Some err -> is_valid_exactly W D = OK false.
Proof. unfold is_valid_exactly, validate_exactly. by intros ->. Qed.

Lemma assert_light_valid W D :
  jsonschema_validate (json W) D = None ->
  assert_light (is_valid_exactly W D) = OK tt.
Proof.
  intros HW. unfold assert_light.
  rewrite (is_valid_exactly_true _ _ HW). by destruct LIGHT_ASSERTS.
Qed.

(** C6: [validate] validates the dataset against the schema of the version
    exactly compatible with it, and against the caller's own schema when no
    version of the lineage is; whatever it raises then is the validation
    error [jsonschema] reports for the caller's schema. *)
Theorem validate_resolves (V : Version) (D : gmap string value) :
  (forall W, get_exactly_compatible V D = Some W ->
     validate V D = validate_exactly W D) /\
  (get_exactly_compatible V D = None ->
     validate V D = validate_exactly V D /\
     forall e, validate V D = Raise e ->
       exists err, jsonschema_validate (json V) D = Some err /\
                   e = ValidationError err) /\
  (forall W,
     validate_exactly W D =
     match jsonschema_validate (json W) D with
     | Some err => Raise (ValidationError err)
     | None => OK D
     end).
Proof.
  unfold validate. split_and!.
  - by intros W ->.
  - intros ->. simpl. split; [done|]. intros e.
    destruct (validate_exactly_cases V D) as [[_ ->]|(err & Herr & ->)];
      [done|]. intros [= <-]. eauto.
  - done.
Qed.

(** ** Counting *)

Lemma sum_len_lists D names acc :
  (forall k v, k ∈ names -> k <> "" -> D !! k = Some v -> exists l, v = VList l) ->
  sum_len D names acc = OK (acc + total_length D (counted D names)).
Proof.
  revert acc. induction names as [|k names IH]; intros acc Hlists; simpl.
  - f_equal. unfold total_length. simpl. lia.
  - assert (forall k' v, k' ∈ names -> k' <> "" -> D !! k' = Some v ->
                         exists l, v = VList l) as Hrest
      by (intros k' v Hk'; apply Hlists; rewrite elem_of_cons; by right).
    unfold counted. rewrite filter_cons. fold (counted D names).
    destruct (String.eqb_spec k "") as [->|Hk]; cbn [negb].
    + rewrite decide_False by (by intros [? _]). by apply IH.
    + destruct (D !! k) as [v|] eqn:Hv.
      * assert (exists l, v = VList l) as [l ->]
          by (apply (Hlists k); [rewrite elem_of_cons; by left|done..]).
        rewrite decide_True by done.
        simpl. rewrite IH by done. f_equal.
        change (total_length D (k :: counted D names))
          with (Z.of_nat (length (records_of D k)) +
                total_length D (counted D names)).
        unfold records_of. rewrite Hv. lia.
      * rewrite decide_False by (by intros [_ []]).
        by apply IH.
Qed.

(** C10, as the code has it: without an exactly compatible version [count]
    returns no number and raises no validation error: the validity assertion
    fires, or [None.tree] is dereferenced; with one, once the validity
    assertion passes and the non-root collections of its tree found in the
    dataset are lists, [count] returns the sum of their lengths. *)
Theorem count_partial (V : Version) (D : gmap string value) :
  (get_exactly_compatible V D = None ->
     (count V D = Raise AssertionError \/ count V D = Raise AttributeError) /\
     (LIGHT_ASSERTS = true -> count V D = Raise AttributeError)) /\
  (forall W,
     get_exactly_compatible V D = Some W ->
     assert_light (is_valid V D) = OK tt ->
     (forall k v, k ∈ (tree W).*1 -> k <> "" -> D !! k = Some v ->
                  exists l, v = VList l) ->
     count V D = OK (total_length D (counted D (tree W).*1))).
Proof.
  unfold count. split.
  - intros Hnone. rewrite Hnone.
    unfold assert_light, is_valid, validate.
    rewrite Hnone. simpl.
    destruct LIGHT_ASSERTS; simpl; [by split; [right|]|].
    split; [|done].
    destruct (validate_exactly_cases V D) as [[_ ->]|(err & _ & ->)];
      simpl; eauto.
  - intros W HW Hassert Hlists. rewrite HW, Hassert. simpl.
    by rewrite sum_len_lists.
Qed.

(** ** Upgrading *)

Lemma find_anchor_none versions D newer_versions :
  first_compatible versions D = None ->
  find_anchor versions D newer_versions = OK None.
Proof.
  revert newer_versions.
  induction versions as [|v rest IH]; intros acc; simpl; [done|].
  destruct (is_compatible_exactly v D); [done|]. apply IH.
Qed.

Lemma find_anchor_found newer W older D newer_versions :
  is_compatible_exactly W D = true ->
  Forall (fun N => is_compatible_exactly N D = false) newer ->
  find_anchor (newer ++ W :: older) D newer_versions =
  (assert_light (is_valid_exactly W D);; OK (Some (reverse newer ++ newer_versions))).
Proof.
  intros HW. revert newer_versions.
  induction newer as [|N newer IH]; intros acc Hnewer; simpl.
  - by rewrite HW.
  - apply Forall_cons in Hnewer as [-> Hnewer].
    rewrite IH by done. by rewrite reverse_cons, <- app_assoc.
Qed.

(** C5, as the code has it: without an anchor [upgrade] validates the
    dataset against the target version's own schema and raises the
    validation error when there is one; when the validation passes
    ("Data validated unexpectedly") it raises an assertion error; it never
    returns, and invokes no [_inherit]. *)
Theorem upgrade_without_anchor (V : Version) (D : gmap string value)
    (copy : bool) (log : list Version) :
  get_exactly_compatible V D = None ->
  upgrade V D copy log =
  (match jsonschema_validate (json V) D with
   | Some err => Raise (ValidationError err)
   | None => Raise AssertionError
   end, log).
Proof.
  intros Hnone. unfold upgrade, deepcopy.
  replace (if copy then D else D) with D by (by destruct copy).
  unfold mbind, M_bind, lift.
  rewrite (find_anchor_none _ _ _ Hnone). unfold validate_exactly.
  by destruct (jsonschema_validate (json V) D).
Qed.

(** The first loop of [upgrade] stops at once on a dataset valid at the
    target version, and the second has nothing to go through. *)
Lemma upgrade_at_anchor (V : Version) (D : gmap string value)
    (copy : bool) (log : list Version) :
  valid_at V D ->
  upgrade V D copy log = (OK D, log).
Proof.
  intros [Hcompat Hvalid]. unfold upgrade, deepcopy.
  replace (if copy then D else D) with D by (by destruct copy).
  unfold mbind, M_bind, lift. rewrite lineage_unfold.
  match goal with
  | |- context [V :: ?older] =>
      pose proof (find_anchor_found [] V older D [] Hcompat (Forall_nil_2 _))
        as Hanchor
  end.
  rewrite app_nil_l in Hanchor. rewrite Hanchor.
  by rewrite assert_light_valid.
Qed.

(** C7: a dataset valid at [V] is returned by [upgrade] as it is, and no
    [_inherit] is invoked. *)
Theorem upgrade_valid_unchanged (V : Version) (D : gmap string value)
    (copy : bool) (log : list Version) :
  valid_at V D ->
  upgrade V D copy log = (OK D, log).
Proof. apply upgrade_at_anchor. Qed.

Lemma lineage_head V x xs : lineage V = x :: xs -> x = V.
Proof. rewrite lineage_unfold. by intros [= <- _]. Qed.

Lemma lineage_base V b : base V = Some b -> lineage V = V :: lineage b.
Proof. intros Hb. by rewrite lineage_unfold, Hb. Qed.

Lemma lineage_base_None V : base V = None -> lineage V = [V].
Proof. intros Hb. by rewrite lineage_unfold, Hb. Qed.

Lemma lineage_self V : V ∈ lineage V.
Proof. rewrite lineage_unfold. apply elem_of_cons. by left. Qed.

(** The lineage of a member of a lineage is the rest of that lineage. *)
Lemma lineage_suffix V W :
  W ∈ lineage V -> exists newer, lineage V = newer ++ lineage W.
Proof.
  induction V as [V IH] using Version_base_ind.
  rewrite (lineage_unfold V). intros [->|HW]%elem_of_cons.
  - exists []. by rewrite <- lineage_unfold.
  - destruct (base V) as [b|] eqn:Hb; [|by apply elem_of_nil in HW].
    destruct (IH b eq_refl HW) as [newer ->]. by exists (V :: newer).
Qed.

Lemma lineage_split_base V N newer W :
  lineage V = (N :: newer) ++ lineage W ->
  N = V /\ exists b, base V = Some b /\ lineage b = newer ++ lineage W.
Proof.
  rewrite (lineage_unfold V). intros [= <- Htail]. split; [done|].
  destruct (base V) as [b|]; [by exists b|].
  destruct newer; [|done]. simpl in Htail.
  by rewrite lineage_unfold in Htail.
Qed.

Lemma lineage_trans V W X : W ∈ lineage V -> X ∈ lineage W -> X ∈ lineage V.
Proof.
  intros [newer ->]%lineage_suffix HX. apply elem_of_app. by right.
Qed.

Lemma well_formed_member V W : well_formed V -> W ∈ lineage V -> well_formed W.
Proof.
  intros (Hinit & Hcid & Htree & Hget) HW.
  pose proof HW as [newer Hnewer]%lineage_suffix.
  split_and!.
  - intros X HX. apply Hinit. by eapply lineage_trans.
  - rewrite Hnewer, fmap_app in Hcid. by apply NoDup_app in Hcid as (_ & _ & ?).
  - intros X HX. apply Htree. by eapply lineage_trans.
  - intros X HX d. rewrite (Hget W HW d). apply Hget. by eapply lineage_trans.
Qed.

Lemma inherit_contract_member V W :
  inherit_contract V -> W ∈ lineage V -> inherit_contract W.
Proof.
  intros Hcontract HW X P d HX. apply Hcontract. by eapply lineage_trans.
Qed.

(** Major numbers grow strictly along a well formed lineage. *)
Lemma lineage_majors V newer W :
  well_formed V -> lineage V = newer ++ lineage W ->
  major W <= major V /\ forall N, N ∈ newer -> major W < major N.
Proof.
  revert newer. induction V as [V IH] using Version_base_ind.
  intros [|N newer] Hwf Hsplit.
  - simpl in Hsplit. rewrite (lineage_unfold W) in Hsplit.
    apply lineage_head in Hsplit as ->. split; [lia|].
    by intros N ?%elem_of_nil.
  - apply lineage_split_base in Hsplit as (-> & b & Hb & Hsplit).
    assert (b ∈ lineage V) as Hmem
      by (rewrite (lineage_base _ _ Hb), elem_of_cons; right;
          apply lineage_self).
    destruct (IH b Hb newer (well_formed_member _ _ Hwf Hmem) Hsplit)
      as [Hle Hnewer].
    destruct Hwf as (Hinit & _).
    destruct (Hinit V (lineage_self V)) as (_ & Hgt & _).
    rewrite Hb in Hgt. simpl in Hgt. split; [lia|].
    intros N [->|HN]%elem_of_cons; [lia|by apply Hnewer].
Qed.

(** In a well formed lineage no version newer than one the dataset is
    exactly compatible with is exactly compatible with it. *)
Lemma newer_incompatible V newer W D :
  well_formed V -> lineage V = newer ++ lineage W ->
  is_compatible_exactly W D = true ->
  Forall (fun N => is_compatible_exactly N D = false) newer.
Proof.
  intros Hwf Hsplit HW. apply Forall_forall. intros N HN.
  destruct (lineage_majors _ _ _ Hwf Hsplit) as [_ Hlt].
  specialize (Hlt N HN). destruct Hwf as (_ & _ & _ & Hget).
  assert (_get_version N D = _get_version W D) as Heq.
  { rewrite (Hget N), (Hget W); [done|..]; rewrite Hsplit, elem_of_app;
      [right; apply lineage_self|by left]. }
  unfold is_compatible_exactly in *. rewrite Heq.
  destruct (_get_version W D) as [[mj mn]|]; [|done].
  apply andb_true_iff in HW as [->%Z.eqb_eq _].
  apply andb_false_iff. left. apply Z.eqb_neq. lia.
Qed.

Lemma anchor_unique V W D :
  well_formed V -> W ∈ lineage V -> is_compatible_exactly W D = true ->
  get_exactly_compatible V D = Some W.
Proof.
  intros Hwf [newer Hsplit]%lineage_suffix HW.
  apply first_compatible_Some. rewrite (lineage_unfold W) in Hsplit.
  eexists newer, _. split_and!; [done..|].
  eapply newer_incompatible; [done| |done]. by rewrite (lineage_unfold W).
Qed.

Lemma for_each_app {A B} (body : A -> B -> M A) acc xs ys log :
  for_each body acc (xs ++ ys) log =
  (acc' ← for_each body acc xs; for_each body acc' ys) log.
Proof.
  revert acc log. induction xs as [|x xs IH]; intros acc log; simpl; [done|].
  unfold mbind, M_bind in *. destruct (body acc x log) as [[acc'|e] log'];
    [apply IH|done].
Qed.

(** Under its contract [_inherit] carries valid data up the lineage, one
    version at a time, oldest first. *)
Lemma inherit_chain V newer W D :
  inherit_contract V -> lineage V = newer ++ lineage W -> valid_at W D ->
  exists D',
    (forall log,
       for_each inherit_step D (reverse newer) log =
       (OK D', log ++ reverse newer)) /\
    valid_at V D'.
Proof.
  revert newer. induction V as [V IH] using Version_base_ind.
  intros [|N newer] Hcontract Hsplit Hvalid.
  - simpl in Hsplit. rewrite (lineage_unfold W) in Hsplit.
    apply lineage_head in Hsplit as ->. exists D. split; [|done].
    intros log. simpl. by rewrite app_nil_r.
  - apply lineage_split_base in Hsplit as (-> & b & Hb & Hsplit).
    assert (b ∈ lineage V) as Hmem
      by (rewrite (lineage_base _ _ Hb), elem_of_cons; right;
          apply lineage_self).
    destruct (IH b Hb newer (inherit_contract_member _ _ Hcontract Hmem)
                Hsplit Hvalid) as (D1 & Hrun & Hvalid1).
    destruct (Hcontract V b D1 (lineage_self V) Hb Hvalid1)
      as (D2 & Hinherit & Hvalid2).
    exists D2. split; [|done]. intros log.
    rewrite reverse_cons, for_each_app. unfold mbind at 1, M_bind at 1.
    rewrite Hrun. simpl. unfold inherit_step, call_inherit, lift.
    unfold mbind, M_bind, mret, M_ret. rewrite Hinherit.
    destruct Hvalid2 as [_ Hschema].
    rewrite (assert_light_valid _ _ Hschema). by rewrite app_assoc.
Qed.

Lemma issubclass_lineage W X :
  issubclass W X = true <-> exists Y, Y ∈ lineage W /\ cid Y = cid X.
Proof.
  induction W as [W IH] using Version_base_ind.
  rewrite issubclass_unfold, orb_true_iff, is_true_iff, (lineage_unfold W).
  destruct (base W) as [b|] eqn:Hb.
  - rewrite (IH b eq_refl). split.
    + intros [Heq|(Y & HY & Heq)].
      * exists W. split; [apply elem_of_cons; by left|done].
      * exists Y. split; [apply elem_of_cons; by right|done].
    + intros (Y & [->|HY]%elem_of_cons & Heq); [by left|right; eauto].
  - split.
    + intros [Heq|?]; [|done]. exists W. split; [apply elem_of_cons; by left|done].
    + intros (Y & [->|[]%elem_of_nil]%elem_of_cons & Heq). by left.
Qed.

Lemma issubclass_member V W : W ∈ lineage V -> issubclass V W = true.
Proof. intros HW. apply issubclass_lineage. eauto. Qed.

Lemma cid_inj (l : list Version) X Y :
  NoDup (cid <$> l) -> X ∈ l -> Y ∈ l -> cid X = cid Y -> X = Y.
Proof.
  induction l as [|Z l IH]; [by intros _ ?%elem_of_nil|].
  rewrite fmap_cons, NoDup_cons.
  intros [Hnotin Hnodup] [->|HX]%elem_of_cons [->|HY]%elem_of_cons Heq;
    [done| | |by apply IH].
  - destruct Hnotin. rewrite Heq. by apply list_elem_of_fmap_2.
  - destruct Hnotin. rewrite <- Heq. by apply list_elem_of_fmap_2.
Qed.

Lemma lineage_antisym V W : W ∈ lineage V -> V ∈ lineage W -> V = W.
Proof.
  intros [n1 H1]%lineage_suffix [n2 H2]%lineage_suffix.
  assert (n1 = []) as ->.
  { apply (f_equal length) in H1, H2. rewrite !length_app in H1, H2.
    destruct n1; [done|]. simpl in *. lia. }
  simpl in H1. rewrite (lineage_unfold W) in H1. symmetry.
  by apply lineage_head in H1.
Qed.

(** Whatever the lineage of [V] lists before the lineage of [X] descends
    from [X]. *)
Lemma lineage_newer_descends V newer X W :
  lineage V = newer ++ lineage X -> W ∈ newer -> X ∈ lineage W.
Proof.
  revert newer. induction V as [V IH] using Version_base_ind.
  intros [|N newer] Hsplit HW; [by apply elem_of_nil in HW|].
  pose proof Hsplit as (-> & b & Hb & Hsplit')%lineage_split_base.
  apply elem_of_cons in HW as [->|HW].
  - rewrite Hsplit. apply elem_of_app. right. apply lineage_self.
  - by apply (IH b Hb newer).
Qed.

(** The code's own order on the versions newer than a member of a well
    formed lineage. *)
Lemma newer_is_gt V newer X W :
  well_formed V -> lineage V = newer ++ lineage X ->
  (W ∈ newer <-> W ∈ lineage V /\ __gt__ W X = OK true).
Proof.
  intros (_ & Hcid & _) Hsplit.
  assert (X ∈ lineage V) as HX
    by (rewrite Hsplit, elem_of_app; right; apply lineage_self).
  unfold __gt__. split.
  - intros HW.
    assert (W ∈ lineage V) as HWV by (rewrite Hsplit, elem_of_app; by left).
    split; [done|].
    pose proof (lineage_newer_descends _ _ _ _ Hsplit HW) as HXW.
    rewrite (issubclass_member _ _ HXW). simpl. do 2 f_equal.
    apply negb_true_iff, not_true_iff_false. rewrite is_true_iff.
    rewrite Hsplit, fmap_app in Hcid.
    apply NoDup_app in Hcid as (_ & Hdisj & _). intros Heq.
    apply (Hdisj (cid W)); [by apply list_elem_of_fmap_2|].
    rewrite <- Heq. apply list_elem_of_fmap_2, lineage_self.
  - intros [HWV Hgt].
    rewrite Hsplit in HWV. apply elem_of_app in HWV as [?|HWX]; [done|].
    destruct (issubclass W X) eqn:Hsub; simpl in Hgt; [|by destruct (issubclass X W)].
    apply issubclass_lineage in Hsub as (Y & HY & Heq).
    assert (Y = X) as ->.
    { apply (cid_inj (lineage V)); [done| |done..].
      rewrite Hsplit, elem_of_app. right. by eapply lineage_trans. }
    rewrite (lineage_antisym _ _ HWX HY) in Hgt.
    unfold is_ in Hgt. rewrite Nat.eqb_refl in Hgt. by injection Hgt.
Qed.

Lemma StronglySorted_reverse {A} (R : relation A) l :
  StronglySorted R l -> StronglySorted (flip R) (reverse l).
Proof.
  induction 1 as [|x l Hsorted IH Hall]; [constructor|].
  rewrite reverse_cons. apply StronglySorted_app. split_and!.
  - intros x1 x2 Hx1 ->%list_elem_of_singleton.
    rewrite elem_of_reverse in Hx1.
    rewrite Forall_forall in Hall. by apply Hall.
  - done.
  - repeat constructor.
Qed.

Lemma StronglySorted_mono {A} (R R' : relation A) l :
  (forall a b, R a b -> R' a b) -> StronglySorted R l -> StronglySorted R' l.
Proof.
  intros Himpl. induction 1 as [|x l Hsorted IH Hall]; constructor; [done|].
  eapply Forall_impl; [exact Hall|]. apply Himpl.
Qed.

(** A well formed lineage lists its versions newest first. *)
Lemma lineage_sorted V :
  well_formed V -> StronglySorted (fun a b => __gt__ a b = OK true) (lineage V).
Proof.
  induction V as [V IH] using Version_base_ind. intros Hwf.
  destruct (base V) as [b|] eqn:Hb.
  - pose proof (lineage_base _ _ Hb) as Hlin.
    assert (b ∈ lineage V) as Hmem
      by (rewrite Hlin, elem_of_cons; right; apply lineage_self).
    rewrite Hlin. constructor.
    + apply IH; [done|]. by eapply well_formed_member.
    + apply Forall_forall. intros X HX.
      assert (X ∈ lineage V) as HXV by (rewrite Hlin, elem_of_cons; by right).
      destruct (lineage_suffix _ _ HXV) as [[|N n] Hn].
      * exfalso. simpl in Hn. rewrite (lineage_unfold X) in Hn.
        apply lineage_head in Hn as ->.
        destruct Hwf as (_ & Hcid & _).
        rewrite Hlin, fmap_cons, NoDup_cons in Hcid.
        destruct Hcid as [Hnotin _]. apply Hnotin.
        by apply list_elem_of_fmap_2.
      * pose proof Hn as (-> & _)%lineage_split_base.
        apply (newer_is_gt V (V :: n) X V Hwf Hn).
        apply elem_of_cons. by left.
  - rewrite (lineage_base_None _ Hb). repeat constructor.
Qed.

Lemma upgrade_from_anchor V newer W D :
  well_formed V -> inherit_contract V ->
  lineage V = newer ++ lineage W -> valid_at W D ->
  exists D',
    (forall copy log,
       upgrade V D copy log = (OK D', log ++ reverse newer)) /\
    valid_at V D'.
Proof.
  intros Hwf Hcontract Hsplit Hvalid.
  destruct (inherit_chain V newer W D Hcontract Hsplit Hvalid)
    as (D' & Hrun & Hvalid').
  exists D'. split; [|done]. intros copy log.
  destruct Hvalid as [Hcompat Hschema].
  unfold upgrade, deepcopy.
  replace (if copy then D else D) with D by (by destruct copy).
  unfold mbind at 1, M_bind at 1, lift at 1.
  rewrite Hsplit, (lineage_unfold W), find_anchor_found;
    [|done|by eapply newer_incompatible].
  rewrite (assert_light_valid _ _ Hschema). simpl.
  by rewrite app_nil_r.
Qed.

(** C1: for [V2 > V1] in a well formed lineage whose [_inherit] transforms
    honour their contract, and [D1] valid at [V1], [upgrade(V2, D1)] returns
    a dataset valid at [V2] and invokes the [_inherit] of exactly the
    versions newer than [V1] up to [V2], oldest first, each once. *)
Theorem upgrade_inherits_in_order (V2 V1 : Version) (D1 : gmap string value)
    (copy : bool) (log : list Version) :
  well_formed V2 -> inherit_contract V2 ->
  V1 ∈ lineage V2 -> __gt__ V2 V1 = OK true ->
  valid_at V1 D1 ->
  exists newer D2,
    upgrade V2 D1 copy log = (OK D2, log ++ reverse newer) /\
    valid_at V2 D2 /\
    lineage V2 = newer ++ lineage V1 /\
    (forall W, W ∈ newer <-> W ∈ lineage V2 /\ __gt__ W V1 = OK true) /\
    NoDup (reverse newer) /\
    StronglySorted (fun a b => __lt__ a b = OK true) (reverse newer) /\
    last (reverse newer) = Some V2.
Proof.
  intros Hwf Hcontract [newer Hsplit]%lineage_suffix Hgt Hvalid.
  destruct (upgrade_from_anchor V2 newer V1 D1 Hwf Hcontract
              Hsplit Hvalid) as (D2 & Hrun & Hvalid2).
  exists newer, D2. split_and!; [done..| | | |].
  - intros W. by apply newer_is_gt.
  - rewrite reverse_Permutation. destruct Hwf as (_ & Hcid & _).
    apply NoDup_fmap_1 in Hcid. rewrite Hsplit in Hcid.
    by apply NoDup_app in Hcid as (? & _).
  - pose proof (lineage_sorted V2 Hwf) as Hsorted.
    rewrite Hsplit in Hsorted. apply StronglySorted_app_1_l in Hsorted.
    apply StronglySorted_reverse in Hsorted.
    eapply StronglySorted_mono; [|exact Hsorted]. unfold flip.
    intros a b Hab. by rewrite <- gt_lt_swap.
  - destruct newer as [|N newer].
    + simpl in Hsplit. rewrite (lineage_unfold V1) in Hsplit.
      apply lineage_head in Hsplit as ->. unfold __gt__, is_ in Hgt.
      rewrite Nat.eqb_refl, andb_false_r in Hgt.
      by destruct (negb (issubclass V2 V2) && negb (issubclass V2 V2)).
    + apply lineage_split_base in Hsplit as (-> & _).
      by rewrite reverse_cons, last_snoc.
Qed.

(** C8: upgrading is idempotent on datasets valid at [V] or at one of its
    ancestors: upgrading the upgraded dataset again returns it as it is, so
    that upgrading twice is upgrading once. *)
Theorem upgrade_idempotent (V W : Version) (D : gmap string value)
    (copy copy' : bool) (log : list Version) :
  well_formed V -> inherit_contract V ->
  W ∈ lineage V -> valid_at W D ->
  (D' ← upgrade V D copy; upgrade V D' copy') log = upgrade V D copy log /\
  exists D' log',
    upgrade V D copy log = (OK D', log') /\
    upgrade V D' copy' log' = (OK D', log').
Proof.
  intros Hwf Hcontract [newer Hsplit]%lineage_suffix Hvalid.
  destruct (upgrade_from_anchor V newer W D Hwf Hcontract
              Hsplit Hvalid) as (D' & Hrun & Hvalid').
  pose proof (upgrade_at_anchor V D' copy' (log ++ reverse newer)
                Hvalid') as Hagain.
  split; [|by eauto].
  unfold mbind, M_bind. by rewrite Hrun, Hagain.
Qed.

(** ** Merging *)

Lemma records_of_list D k l : D !! k = Some (VList l) -> records_of D k = l.
Proof. unfold records_of. by intros ->. Qed.

Lemma records_of_absent D k : D !! k = None -> records_of D k = [].
Proof. unfold records_of. by intros ->. Qed.

(** The inner loop appends, name by name, the lists of the source to the
    lists of the target. *)
Lemma merge_obj_lists_lookup names target source :
  NoDup names ->
  (forall k, k ∈ names ->
     (target !! k = None \/ exists l, target !! k = Some (VList l)) /\
     (source !! k = None \/ exists l, source !! k = Some (VList l))) ->
  exists r,
    merge_obj_lists names target source = OK r /\
    forall k, r !! k = merged_lookup names target source k.
Proof.
  revert target. induction names as [|n names IH]; intros target Hnodup Hlists.
  - exists target. split; [done|]. intros k. unfold merged_lookup.
    rewrite decide_False; [done|]. by intros [?%elem_of_nil _].
  - apply NoDup_cons in Hnodup as [Hn Hnodup].
    destruct (Hlists n) as [Htn Hsn]; [apply elem_of_cons; by left|].
    simpl. destruct Hsn as [Hsn|[ys Hsn]]; rewrite Hsn.
    + destruct (IH target Hnodup) as (r & -> & Hr).
      { intros k Hk. apply Hlists, elem_of_cons. by right. }
      exists r. split; [done|]. intros k. rewrite Hr. unfold merged_lookup.
      destruct (decide (k = n)) as [->|Hkn].
      * rewrite !decide_False; [done|..]; rewrite Hsn; by intros [_ []].
      * apply decide_ext. rewrite elem_of_cons. intuition.
    + assert (default (VList []) (target !! n) = VList (records_of target n))
        as ->.
      { destruct Htn as [Htn|[xs Htn]].
        - by rewrite (records_of_absent _ _ Htn), Htn.
        - by rewrite (records_of_list _ _ _ Htn), Htn. }
      simpl.
      destruct (IH (<[n := VList (records_of target n ++ ys)]> target) Hnodup)
        as (r & -> & Hr).
      { intros k Hk. assert (n <> k) as Hne by (by intros ->).
        rewrite lookup_insert_ne by done.
        apply Hlists, elem_of_cons. by right. }
      exists r. split; [done|]. intros k. rewrite Hr. unfold merged_lookup.
      destruct (decide (k = n)) as [->|Hkn].
      * rewrite decide_False by (by intros [? _]).
        rewrite decide_True
          by (split; [apply elem_of_cons; by left|by rewrite Hsn]).
        by rewrite lookup_insert_eq, (records_of_list _ _ _ Hsn).
      * unfold records_of. rewrite !lookup_insert_ne by done.
        apply decide_ext. rewrite elem_of_cons. intuition.
Qed.

(** A lineage is a chain. *)
Lemma lineage_total V W1 W2 :
  W1 ∈ lineage V -> W2 ∈ lineage V -> W1 ∈ lineage W2 \/ W2 ∈ lineage W1.
Proof.
  induction V as [V IH] using Version_base_ind.
  rewrite (lineage_unfold V). intros [->|H1]%elem_of_cons [->|H2]%elem_of_cons.
  - left. apply lineage_self.
  - right. rewrite lineage_unfold. apply elem_of_cons. by right.
  - left. rewrite lineage_unfold. apply elem_of_cons. by right.
  - destruct (base V) as [b|]; [by apply (IH b)|by apply elem_of_nil in H1].
Qed.

Lemma issubclass_member_inv V W1 W2 :
  well_formed V -> W1 ∈ lineage V -> W2 ∈ lineage V ->
  issubclass W1 W2 = true -> W2 ∈ lineage W1.
Proof.
  intros (_ & Hcid & _) H1 H2 (Y & HY & Heq)%issubclass_lineage.
  assert (Y = W2) as ->; [|done].
  apply (cid_inj (lineage V)); [done| |done..].
  by apply (lineage_trans V W1).
Qed.

Lemma is_valid_member V W D :
  well_formed V -> W ∈ lineage V -> valid_at W D ->
  get_exactly_compatible V D = Some W /\
  assert_light (is_valid V D) = OK tt.
Proof.
  intros Hwf HW [Hcompat Hschema].
  pose proof (anchor_unique V W D Hwf HW Hcompat) as Hanchor.
  split; [done|]. unfold assert_light, is_valid, validate.
  rewrite Hanchor. simpl. unfold validate_exactly. rewrite Hschema.
  by destruct LIGHT_ASSERTS.
Qed.


(** One round of [merge]: the working version becomes the more senior of
    the target's and the source's, the other side is upgraded to it, and the
    source's lists are appended to the target's. *)
Lemma merge_source_step V Wt Ws target source copy_sources :
  well_formed V -> inherit_contract V -> lists_contract V -> merge_closed V ->
  Wt ∈ lineage V -> Ws ∈ lineage V ->
  valid_at Wt target -> valid_at Ws source ->
  exists W t' s' r,
    W = (if issubclass Ws Wt then Ws else Wt) /\
    W ∈ lineage V /\ Wt ∈ lineage W /\ Ws ∈ lineage W /\
    (forall copy l, exists l', upgrade W target copy l = (OK t', l')) /\
    (forall copy l, exists l', upgrade W source copy l = (OK s', l')) /\
    (forall log, exists log',
       merge_source V copy_sources (target, Some Wt) source log =
       (OK (r, Some W), log')) /\
    (forall k, r !! k = merged_lookup (tree W).*1 t' s' k) /\
    valid_at W r.
Proof.
  intros Hwf Hcontract Hlists Hclosed HWt HWs Hvt Hvs.
  destruct (is_valid_member V Ws source Hwf HWs Hvs) as [Hanchor Hassert].
  set (W := if issubclass Ws Wt then Ws else Wt).
  assert (W ∈ lineage V /\ Wt ∈ lineage W /\ Ws ∈ lineage W) as (HW & HtW & HsW).
  { subst W. destruct (issubclass Ws Wt) eqn:Hsub.
    - split_and!; [done| |apply lineage_self].
      by eapply issubclass_member_inv.
    - split_and!; [done|apply lineage_self|].
      destruct (lineage_total V Wt Ws HWt HWs) as [H|H]; [|done].
      apply issubclass_member in H. congruence. }
  pose proof (well_formed_member _ _ Hwf HW) as HwfW.
  pose proof (inherit_contract_member _ _ Hcontract HW) as HcontractW.
  pose proof HtW as [nt Hnt]%lineage_suffix.
  pose proof HsW as [ns Hns]%lineage_suffix.
  destruct (upgrade_from_anchor W nt Wt target HwfW HcontractW Hnt Hvt)
    as (t' & Hupt & Hvt').
  destruct (upgrade_from_anchor W ns Ws source HwfW HcontractW Hns Hvs)
    as (s' & Hups & Hvs').
  destruct (merge_obj_lists_lookup (tree W).*1 t' s') as (r & Hmerge & Hr).
  { destruct Hwf as (_ & _ & Htree & _). by apply Htree. }
  { intros k Hk. split; by eapply Hlists. }
  exists W, t', s', r. split_and!; [done..| | | |done|by apply (Hclosed W t' s' r)].
  - intros copy l. by eexists.
  - intros copy l. by eexists.
  - intros log. unfold merge_source.
    unfold mbind at 1, M_bind at 1, lift at 1. rewrite Hassert.
    unfold deepcopy.
    replace (if copy_sources then source else source) with source
      by (by destruct copy_sources).
    rewrite Hanchor. unfold mbind at 1, M_bind at 1, lift at 1. simpl.
    fold W. subst W. destruct (issubclass Ws Wt) eqn:Hsub.
    + assert (s' = source) as ->.
      { pose proof (upgrade_at_anchor Ws source false [] Hvs) as Hid.
        rewrite Hups in Hid. by injection Hid as ->. }
      unfold mbind, M_bind, mret, M_ret, lift. rewrite Hupt, Hmerge.
      by eexists.
    + assert (t' = target) as ->.
      { pose proof (upgrade_at_anchor Wt target false [] Hvt) as Hid.
        rewrite Hupt in Hid. by injection Hid as ->. }
      unfold mbind, M_bind, mret, M_ret, lift. rewrite Hups, Hmerge.
      by eexists.
Qed.

(** The loop of [merge] over the sources keeps the target valid at the
    working version, which ends as the most senior version met. *)
Lemma merge_loop V Wt target sources copy_sources :
  well_formed V -> inherit_contract V -> lists_contract V -> merge_closed V ->
  Wt ∈ lineage V -> valid_at Wt target ->
  (forall s, s ∈ sources -> exists Ws, Ws ∈ lineage V /\ valid_at Ws s) ->
  exists W r,
    (forall log, exists log',
       for_each (merge_source V copy_sources) (target, Some Wt) sources log =
       (OK (r, Some W), log')) /\
    W ∈ lineage V /\ valid_at W r /\ Wt ∈ lineage W /\
    (forall s, s ∈ sources ->
       exists Ws, Ws ∈ lineage V /\ valid_at Ws s /\ Ws ∈ lineage W) /\
    (W = Wt \/ exists s, s ∈ sources /\ valid_at W s).
Proof.
  intros Hwf Hcontract Hlists Hclosed. revert Wt target.
  induction sources as [|s sources IH]; intros Wt target HWt Hvt Hsources.
  - exists Wt, target. split_and!; [|done|done| | |by left].
    + intros log. by exists log.
    + apply lineage_self.
    + by intros s ?%elem_of_nil.
  - destruct (Hsources s) as (Ws & HWs & Hvs); [apply elem_of_cons; by left|].
    destruct (merge_source_step V Wt Ws target s copy_sources Hwf Hcontract
                Hlists Hclosed HWt HWs Hvt Hvs)
      as (W1 & t' & s' & r1 & HW1 & HW1V & HtW1 & HsW1 & _ & _ & Hstep & _ & Hvr1).
    destruct (IH W1 r1 HW1V Hvr1) as (W & r & Hrun & HWV & Hvr & HW1W & Hall & Hsome).
    { intros s0 Hs0. apply Hsources, elem_of_cons. by right. }
    exists W, r. split_and!; [|done|done| | |].
    + intros log. destruct (Hstep log) as [log1 Hlog1].
      destruct (Hrun log1) as [log' Hlog']. exists log'.
      cbn [for_each]. unfold mbind at 1, M_bind at 1. by rewrite Hlog1.
    + by apply (lineage_trans W W1).
    + intros s0 [->|Hs0]%elem_of_cons; [|by apply Hall].
      exists Ws. split_and!; [done..|]. by apply (lineage_trans W W1).
    + destruct Hsome as [->|(s0 & Hs0 & Hvs0)].
      * destruct (issubclass Ws Wt); subst W1; [right|by left].
        exists s. split; [apply elem_of_cons; by left|done].
      * right. exists s0. split; [apply elem_of_cons; by right|done].
Qed.

Lemma for_each_cons {A B} (body : A -> B -> M A) acc x xs log :
  for_each body acc (x :: xs) log =
  match body acc x log with
  | (OK acc', log') => for_each body acc' xs log'
  | (Raise e, log') => (Raise e, log')
  end.
Proof. done. Qed.

Lemma merge_unfold V Wt target sources copy_target copy_sources log :
  well_formed V -> Wt ∈ lineage V -> valid_at Wt target ->
  merge V target sources copy_target copy_sources log =
  match for_each (merge_source V copy_sources) (target, Some Wt) sources log with
  | (OK (r, W), log') =>
      (lift (assert_light
               match W with
               | Some W => is_valid_exactly W r
               | None => Raise AttributeError
               end);; mret r) log'
  | (Raise e, log') => (Raise e, log')
  end.
Proof.
  intros Hwf HWt Hvt.
  destruct (is_valid_member V Wt target Hwf HWt Hvt) as [Hanchor Hassert].
  unfold merge. unfold mbind at 1, M_bind at 1, lift at 1. rewrite Hassert.
  unfold deepcopy.
  replace (if copy_target then target else target) with target
    by (by destruct copy_target).
  rewrite Hanchor. unfold mbind at 1, M_bind at 1.
  by destruct (for_each _ _ _ _) as [[[r W]|e] log'].
Qed.

Lemma ge_member W Wd : Wd ∈ lineage W -> __ge__ W Wd = OK true.
Proof.
  intros H%issubclass_member. unfold __ge__. by rewrite H.
Qed.

(** X16: with the default flags (target and sources copied), in a lineage
    honouring the contracts, [merge] takes the sources in order; each time
    the working version becomes the more senior of the target's and the
    source's, the other side is upgraded to it, and under every key of the
    working version's tree the source has the source's records are appended
    after the target's, in order, nothing reordered or dropped, the other
    keys of the target staying as they are; merging the sources one by one
    is merging them at once; the dataset returned is valid at the most
    senior version met among the target and the sources. *)
Theorem merge_appends (V : Version) (target : gmap string value)
    (sources : list (gmap string value)) :
  well_formed V -> inherit_contract V -> lists_contract V -> merge_closed V ->
  (forall d, d ∈ target :: sources -> exists Wd, Wd ∈ lineage V /\ valid_at Wd d) ->
  (exists W r,
     (forall log, exists log',
        merge V target sources true true log = (OK r, log')) /\
     valid_at W r /\
     (exists d, d ∈ target :: sources /\ get_exactly_compatible V d = Some W) /\
     (forall d, d ∈ target :: sources ->
        exists Wd, get_exactly_compatible V d = Some Wd /\
                   __ge__ W Wd = OK true)) /\
  (forall source rest, sources = source :: rest ->
     exists Wt Ws W t' s' r,
       get_exactly_compatible V target = Some Wt /\
       get_exactly_compatible V source = Some Ws /\
       W = (if issubclass Ws Wt then Ws else Wt) /\
       (forall copy l, exists l', upgrade W target copy l = (OK t', l')) /\
       (forall copy l, exists l', upgrade W source copy l = (OK s', l')) /\
       (forall log, exists log',
          merge V target [source] true true log = (OK r, log') /\
          merge V target sources true true log =
          merge V r rest true true log') /\
       (forall k, r !! k = merged_lookup (tree W).*1 t' s' k)).
Proof.
  intros Hwf Hcontract Hlists Hclosed Hinputs.
  destruct (Hinputs target) as (Wt & HWt & Hvt); [apply elem_of_cons; by left|].
  assert (forall s, s ∈ sources -> exists Ws, Ws ∈ lineage V /\ valid_at Ws s)
    as Hsources by (intros s Hs; apply Hinputs, elem_of_cons; by right).
  split.
  - destruct (merge_loop V Wt target sources true Hwf Hcontract Hlists
                Hclosed HWt Hvt Hsources)
      as (W & r & Hrun & HWV & Hvr & HWtW & Hall & Hsome).
    exists W, r. split_and!; [|done| |].
    + intros log. destruct (Hrun log) as [log' Hlog']. exists log'.
      rewrite (merge_unfold V Wt) by done. rewrite Hlog'.
      unfold mbind, M_bind, lift, mret, M_ret.
      destruct Hvr as [_ Hschema]. by rewrite (assert_light_valid _ _ Hschema).
    + destruct Hsome as [->|(s & Hs & Hvs)].
      * exists target. split; [apply elem_of_cons; by left|].
        by apply (is_valid_member V Wt).
      * exists s. split; [apply elem_of_cons; by right|].
        by apply (is_valid_member V W).
    + intros d [->|Hd]%elem_of_cons.
      * exists Wt. split; [by apply (is_valid_member V Wt)|by apply ge_member].
      * destruct (Hall d Hd) as (Wd & HWd & Hvd & HWdW).
        exists Wd. split; [by apply (is_valid_member V Wd)|by apply ge_member].
  - intros source rest ->.
    destruct (Hsources source) as (Ws & HWs & Hvs); [apply elem_of_cons; by left|].
    destruct (merge_source_step V Wt Ws target source true Hwf
                Hcontract Hlists Hclosed HWt HWs Hvt Hvs)
      as (W & t' & s' & r & HW & HWV & HtW & HsW & Hupt & Hups & Hstep & Hr & Hvr).
    exists Wt, Ws, W, t', s', r. split_and!; [| |done..| |done].
    + by apply (is_valid_member V Wt).
    + by apply (is_valid_member V Ws).
    + intros log. destruct (Hstep log) as [log' Hlog']. exists log'.
      rewrite !(merge_unfold V Wt) by done.
      rewrite (merge_unfold V W r) by done.
      rewrite !for_each_cons, Hlog'. cbn [for_each].
      unfold mret at 1, M_ret at 1.
      unfold mbind at 1, M_bind at 1, lift at 1.
      destruct Hvr as [_ Hschema]. by rewrite (assert_light_valid _ _ Hschema).
Qed.

(** * Further properties of the engine *)

(** ** The lineage *)

Lemma lineage_NoDup V : NoDup (lineage V).
Proof.
  induction V as [V IH] using Version_base_ind.
  destruct (base V) as [b|] eqn:Hb.
  - rewrite (lineage_base _ _ Hb). apply NoDup_cons. split; [|by apply IH].
    intros HV.
    assert (b ∈ lineage V) as Hbv
      by (rewrite (lineage_base _ _ Hb), elem_of_cons; right;
          apply lineage_self).
    pose proof (lineage_antisym _ _ HV Hbv) as Heq.
    pose proof (lineage_base _ _ Hb) as Hlin. rewrite Heq in Hlin.
    apply (f_equal length) in Hlin. simpl in Hlin. lia.
  - rewrite (lineage_base_None _ Hb). apply NoDup_singleton.
Qed.

(** X1: the lineage starts with the version itself, every next element is
    the [previous] of the one before, it ends with the version that has no
    [previous], and no version occurs twice. *)
Theorem lineage_previous_chain (V : Version) :
  head (lineage V) = Some V /\
  (forall i A B,
     lineage V !! i = Some A -> lineage V !! S i = Some B ->
     previous A = Some B) /\
  (exists F, last (lineage V) = Some F /\ previous F = None) /\
  NoDup (lineage V).
Proof.
  split_and!.
  - by rewrite lineage_unfold.
  - induction V as [V IH] using Version_base_ind. intros i A B.
    destruct (base V) as [b|] eqn:Hb.
    + rewrite (lineage_base _ _ Hb). destruct i as [|i]; simpl.
      * rewrite (lineage_unfold b). simpl. intros [= <-] [= <-].
        by unfold previous.
      * by apply IH.
    + rewrite (lineage_base_None _ Hb). by destruct i.
  - induction V as [V IH] using Version_base_ind.
    destruct (base V) as [b|] eqn:Hb.
    + destruct (IH b eq_refl) as (F & Hlast & HF). exists F. split; [|done].
      rewrite (lineage_base _ _ Hb), (lineage_unfold b), last_cons_cons.
      by rewrite <- lineage_unfold.
    + exists V. by rewrite (lineage_base_None _ Hb).
  - apply lineage_NoDup.
Qed.

(** ** Classification *)

Lemma is_compatible_spec V D :
  is_compatible V D = true <->
  exists W, W ∈ lineage V /\ is_compatible_exactly W D = true.
Proof.
  unfold is_compatible. rewrite bool_decide_eq_true.
  unfold get_exactly_compatible. split.
  - destruct (first_compatible (lineage V) D) as [W|] eqn:HW; [|done].
    intros _. apply first_compatible_Some in HW
      as (newer & older & Hsplit & Hcompat & _).
    exists W. split; [|done]. rewrite Hsplit, elem_of_app, elem_of_cons.
    right. by left.
  - intros (W & HW & Hcompat) Hnone.
    apply first_compatible_None in Hnone. rewrite Forall_forall in Hnone.
    specialize (Hnone W HW). congruence.
Qed.

(** X2: [is_compatible] holds exactly when some version of the lineage is
    exactly compatible with the dataset, so a dataset compatible with an
    ancestor is compatible with every descendant; what
    [get_exactly_compatible] returns is the version itself or an ancestor
    of it. *)
Theorem is_compatible_iff (V : Version) (D : gmap string value) :
  (is_compatible V D = true <->
     exists W, W ∈ lineage V /\ is_compatible_exactly W D = true) /\
  (forall P, P ∈ lineage V -> is_compatible P D = true ->
             is_compatible V D = true) /\
  (forall W, get_exactly_compatible V D = Some W ->
             W ∈ lineage V /\ __le__ W V = OK true).
Proof.
  split_and!.
  - apply is_compatible_spec.
  - intros P HP (W & HW & Hcompat)%is_compatible_spec.
    apply is_compatible_spec. exists W.
    split; [by apply (lineage_trans V P)|done].
  - intros W (newer & older & Hsplit & _)%first_compatible_Some.
    assert (W ∈ lineage V) as HW
      by (rewrite Hsplit, elem_of_app, elem_of_cons; right; by left).
    split; [done|]. unfold __le__.
    by rewrite (issubclass_member _ _ HW), andb_false_r.
Qed.

(** X3: in a lineage as the metaclass builds it a dataset is exactly
    compatible with at most one version. *)
Theorem exactly_compatible_unique (V W1 W2 : Version) (D : gmap string value) :
  well_formed V -> W1 ∈ lineage V -> W2 ∈ lineage V ->
  is_compatible_exactly W1 D = true -> is_compatible_exactly W2 D = true ->
  W1 = W2.
Proof.
  intros Hwf H1 H2 Hc1 Hc2.
  pose proof (anchor_unique V W1 D Hwf H1 Hc1) as Ha1.
  pose proof (anchor_unique V W2 D Hwf H2 Hc2) as Ha2.
  congruence.
Qed.

(** ** The order of versions *)

Lemma le_member V A B :
  well_formed V -> A ∈ lineage V -> B ∈ lineage V ->
  (__le__ A B = OK true <-> A ∈ lineage B) /\
  exists b, __le__ A B = OK b.
Proof.
  intros Hwf HA HB. unfold __le__.
  destruct (lineage_total V A B HA HB) as [H|H];
    pose proof (issubclass_member _ _ H) as Hsub; rewrite Hsub.
  - rewrite andb_false_r. split; [done|by eexists].
  - simpl. split; [|by eexists]. split.
    + intros [= Hsub']. by apply (issubclass_member_inv V).
    + intros HAB. by rewrite (issubclass_member _ _ HAB).
Qed.

Lemma lineage_trichotomy V A B :
  well_formed V -> A ∈ lineage V -> B ∈ lineage V ->
  __lt__ A B = OK true \/ A = B \/ __gt__ A B = OK true.
Proof.
  intros Hwf HA HB.
  destruct (lineage_total V A B HA HB) as [H|H].
  - destruct (lineage_suffix B A H) as [[|N n] Hn].
    + right. left. simpl in Hn. rewrite (lineage_unfold A) in Hn.
      by apply lineage_head in Hn.
    + left. rewrite <- gt_lt_swap.
      apply (newer_is_gt B (N :: n) A B (well_formed_member _ _ Hwf HB) Hn).
      apply lineage_split_base in Hn as [-> _]. apply elem_of_cons. by left.
  - destruct (lineage_suffix A B H) as [[|N n] Hn].
    + right. left. simpl in Hn. rewrite (lineage_unfold B) in Hn.
      symmetry. by apply lineage_head in Hn.
    + right. right.
      apply (newer_is_gt A (N :: n) B A (well_formed_member _ _ Hwf HA) Hn).
      apply lineage_split_base in Hn as [-> _]. apply elem_of_cons. by left.
Qed.

Lemma gt_majors V A B :
  well_formed V -> A ∈ lineage V -> B ∈ lineage V ->
  __gt__ A B = OK true -> major B < major A.
Proof.
  intros Hwf HA HB Hgt.
  pose proof (well_formed_member _ _ Hwf HA) as HwfA.
  assert (B ∈ lineage A) as HBA.
  { apply (issubclass_member_inv V); [done..|].
    unfold __gt__ in Hgt. destruct (issubclass A B); [done|].
    simpl in Hgt. by destruct (issubclass B A). }
  destruct (lineage_suffix A B HBA) as [[|N n] Hn].
  - simpl in Hn. rewrite (lineage_unfold B) in Hn.
    apply lineage_head in Hn as ->.
    unfold __gt__, is_ in Hgt. rewrite Nat.eqb_refl, andb_false_r in Hgt.
    by destruct (negb (issubclass A A) && negb (issubclass A A)).
  - destruct (lineage_majors A (N :: n) B HwfA Hn) as [_ Hlt].
    apply lineage_split_base in Hn as [-> _]. apply Hlt, elem_of_cons. by left.
Qed.

(** X4: on the versions of one well formed lineage the comparison never
    raises and [<=] is a total order: reflexive, antisymmetric, transitive,
    and of two versions one is [<], [>] or the same as the other. *)
Theorem version_order_laws (V A B C : Version) :
  well_formed V -> A ∈ lineage V -> B ∈ lineage V -> C ∈ lineage V ->
  __le__ A A = OK true /\
  (exists b, __le__ A B = OK b) /\
  (__le__ A B = OK true -> __le__ B A = OK true -> A = B) /\
  (__le__ A B = OK true -> __le__ B C = OK true -> __le__ A C = OK true) /\
  (__lt__ A B = OK true \/ A = B \/ __gt__ A B = OK true).
Proof.
  intros Hwf HA HB HC.
  destruct (le_member V A B Hwf HA HB) as [HAB HABb].
  destruct (le_member V B A Hwf HB HA) as [HBA _].
  destruct (le_member V B C Hwf HB HC) as [HBC _].
  destruct (le_member V A C Hwf HA HC) as [HAC _].
  destruct (le_member V A A Hwf HA HA) as [HAA _].
  split_and!; [|done| | |].
  - apply HAA, lineage_self.
  - intros H1%HAB H2%HBA. by apply lineage_antisym.
  - intros H1%HAB H2%HBC. apply HAC. by apply (lineage_trans C B).
  - by apply (lineage_trichotomy V).
Qed.

(** ** Validation *)

Lemma is_valid_cases V D :
  (validate V D = OK D /\ is_valid V D = OK true) \/
  (exists err, validate V D = Raise (ValidationError err) /\
               is_valid V D = OK false).
Proof.
  unfold is_valid, validate.
  destruct (validate_exactly_cases (default V (get_exactly_compatible V D)) D)
    as [[_ ->]|(err & _ & ->)]; eauto.
Qed.

Lemma assert_light_is_valid_cases V D :
  assert_light (is_valid V D) = OK tt \/
  assert_light (is_valid V D) = Raise AssertionError.
Proof.
  unfold assert_light. destruct LIGHT_ASSERTS; [by left|].
  destruct (is_valid_cases V D) as [[_ ->]|(err & _ & ->)]; simpl; eauto.
Qed.

(** ** Counting *)

Lemma py_len_nonneg v n : py_len v = OK n -> 0 <= n.
Proof. destruct v; simpl; intros [= <-]; lia. Qed.

Lemma sum_len_ge D names acc n : sum_len D names acc = OK n -> acc <= n.
Proof.
  revert acc. induction names as [|k names IH]; intros acc; simpl.
  - intros [= <-]. lia.
  - destruct (negb (String.eqb k "")); [|apply IH].
    destruct (D !! k) as [v|]; [|apply IH].
    destruct (py_len v) as [m|e] eqn:Hm; simpl; [|done].
    intros Hsum%IH. apply py_len_nonneg in Hm. lia.
Qed.

(** X6: a number [count] returns is never negative. *)
Theorem count_nonneg (V : Version) (D : gmap string value) (n : Z) :
  count V D = OK n -> 0 <= n.
Proof.
  unfold count. destruct (assert_light (is_valid V D)); simpl; [|done].
  destruct (get_exactly_compatible V D); [|done]. apply sum_len_ge.
Qed.

Lemma sum_len_absent D names acc :
  (forall k, k ∈ names -> k <> "" -> D !! k = None) ->
  sum_len D names acc = OK acc.
Proof.
  induction names as [|k names IH]; intros Habsent; simpl; [done|].
  assert (sum_len D names acc = OK acc) as Hrest
    by (apply IH; intros k' Hk'; apply Habsent, elem_of_cons; by right).
  destruct (String.eqb_spec k "") as [->|Hk]; simpl; [done|].
  rewrite (Habsent k); [done| |done]. apply elem_of_cons. by left.
Qed.

(** ** Fresh datasets *)

(** X7: with light assertions [new] always returns; whenever it returns,
    the dataset holds the version's numbers under ["version"] and nothing
    else; if the version reads that declaration as its own and its tree
    does not name ["version"], the dataset counts zero objects, and merging
    no source into it or upgrading it to the version returns it as it is. *)
Theorem new_is_empty (V : Version) (d : gmap string value) :
  new V = OK d ->
  d = {[ "version" := VDict [("major", VInt (major V));
                             ("minor", VInt (minor V))] ]} /\
  (is_compatible_exactly V d = true -> "version" ∉ (tree V).*1 ->
   get_exactly_compatible V d = Some V /\
   count V d = OK 0 /\
   (forall copy_target copy_sources log,
      merge V d [] copy_target copy_sources log = (OK d, log)) /\
   (forall copy log, upgrade V d copy log = (OK d, log))).
Proof.
  unfold new.
  set (data := ({[ "version" := _ ]} : gmap string value)).
  destruct (assert_light (is_valid_exactly V data)) as [[]|e] eqn:Hassert;
    simpl; [|done].
  intros [= <-]. split; [done|]. intros Hcompat Htree.
  assert (get_exactly_compatible V data = Some V) as Hanchor.
  { unfold get_exactly_compatible. rewrite lineage_unfold. simpl.
    by rewrite Hcompat. }
  assert (is_valid V data = is_valid_exactly V data) as Hvalid.
  { unfold is_valid, validate. by rewrite Hanchor. }
  split_and!; [done| | |].
  - unfold count. rewrite Hvalid, Hassert, Hanchor. simpl.
    apply sum_len_absent. intros k Hk _. subst data.
    apply lookup_singleton_ne. by intros <-.
  - intros ct cs log. unfold merge, deepcopy.
    unfold mbind at 1, M_bind at 1, lift at 1. rewrite Hvalid, Hassert.
    replace (if ct then data else data) with data by (by destruct ct).
    rewrite Hanchor. cbn [for_each].
    unfold mbind, M_bind, mret, M_ret, lift. by rewrite Hassert.
  - intros copy log. unfold upgrade, deepcopy.
    replace (if copy then data else data) with data by (by destruct copy).
    unfold mbind at 1, M_bind at 1, lift at 1. rewrite lineage_unfold.
    cbn [find_anchor]. by rewrite Hcompat, Hassert.
Qed.

(** ** Upgrading, whatever the transforms do *)

Lemma inherit_step_log D x log :
  exists r, inherit_step D x log = (r, log ++ [x]).
Proof.
  unfold inherit_step, call_inherit, lift, mbind, M_bind, mret, M_ret.
  destruct (_inherit x D) as [D1|e]; [|by eexists].
  destruct (assert_light (is_valid_exactly x D1)) as [[]|e]; by eexists.
Qed.

Lemma for_each_inherit_log xs D log :
  exists invoked,
    snd (for_each inherit_step D xs log) = log ++ invoked /\
    invoked `prefix_of` xs /\
    (forall D', fst (for_each inherit_step D xs log) = OK D' -> invoked = xs).
Proof.
  revert D log. induction xs as [|x xs IH]; intros D log.
  - exists []. simpl. by rewrite app_nil_r.
  - rewrite for_each_cons.
    destruct (inherit_step_log D x log) as [[D1|e] ->].
    + destruct (IH D1 (log ++ [x])) as (inv & Hsnd & Hpre & Hall).
      exists (x :: inv). split_and!.
      * by rewrite Hsnd, <- app_assoc.
      * by apply prefix_cons.
      * intros D' HD'. f_equal. by apply (Hall D').
    + exists [x]. split_and!; [done| |done]. apply prefix_cons, prefix_nil.
Qed.

(** X8: whatever the dataset and the transforms, [upgrade] only extends the
    log; without an anchor it invokes nothing; with anchor [W] it invokes
    [_inherit] along the versions newer than [W], oldest first, stopping at
    the first failure: never the anchor's own transform or an older one,
    never out of order; when it returns it went through all of them. *)
Theorem upgrade_invocations (V : Version) (D : gmap string value)
    (copy : bool) (log : list Version) :
  exists invoked,
    snd (upgrade V D copy log) = log ++ invoked /\
    (get_exactly_compatible V D = None -> invoked = []) /\
    (forall W,
       get_exactly_compatible V D = Some W ->
       exists newer older,
         lineage V = newer ++ W :: older /\
         invoked `prefix_of` reverse newer /\
         (forall D', fst (upgrade V D copy log) = OK D' ->
                     invoked = reverse newer)).
Proof.
  unfold upgrade, deepcopy.
  replace (if copy then D else D) with D by (by destruct copy).
  unfold mbind at 1, M_bind at 1, lift at 1.
  destruct (get_exactly_compatible V D) as [W|] eqn:Hanchor.
  - unfold get_exactly_compatible in Hanchor.
    pose proof Hanchor
      as (newer & older & Hsplit & HW & Hnewer)%first_compatible_Some.
    rewrite Hsplit, (find_anchor_found newer W older D [] HW Hnewer).
    rewrite app_nil_r.
    destruct (assert_light (is_valid_exactly W D)) as [[]|e]; simpl.
    + destruct (for_each_inherit_log (reverse newer) D log)
        as (inv & Hsnd & Hpre & Hall).
      exists inv. split_and!; [done..|].
      intros W' [= <-]. by exists newer, older.
    + exists []. rewrite app_nil_r. split_and!; [done..|].
      intros W' [= <-]. exists newer, older.
      split_and!; [done|apply prefix_nil|done].
  - rewrite (find_anchor_none _ _ _ Hanchor). exists [].
    rewrite app_nil_r. split_and!; [|done|done].
    unfold mbind, M_bind, lift.
    by destruct (validate_exactly V D).
Qed.

(** X9: a dataset declaring the target version goes through no transform:
    with light assertions [upgrade] returns it unchecked, valid or not; with
    heavy assertions it returns it when it adheres to the schema and raises
    an assertion error, not a validation error, when it does not. *)
Theorem upgrade_declared_target (V : Version) (D : gmap string value)
    (copy : bool) (log : list Version) :
  is_compatible_exactly V D = true ->
  upgrade V D copy log =
  (if LIGHT_ASSERTS then OK D
   else match jsonschema_validate (json V) D with
        | None => OK D
        | Some _ => Raise AssertionError
        end, log).
Proof.
  intros Hcompat. unfold upgrade, deepcopy.
  replace (if copy then D else D) with D by (by destruct copy).
  unfold mbind at 1, M_bind at 1, lift at 1. rewrite lineage_unfold.
  cbn [find_anchor]. rewrite Hcompat.
  unfold assert_light, is_valid_exactly, validate_exactly.
  destruct LIGHT_ASSERTS; [done|].
  by destruct (jsonschema_validate (json V) D).
Qed.

(** Upgrading runs the transforms of the versions newer than the version
    the dataset is valid at. *)
Lemma upgrade_runs_chain V newer W D copy log :
  well_formed V -> lineage V = newer ++ lineage W -> valid_at W D ->
  upgrade V D copy log = for_each inherit_step D (reverse newer) log.
Proof.
  intros Hwf Hsplit [Hcompat Hschema]. unfold upgrade, deepcopy.
  replace (if copy then D else D) with D by (by destruct copy).
  unfold mbind at 1, M_bind at 1, lift at 1.
  rewrite Hsplit, (lineage_unfold W), find_anchor_found;
    [|done|by eapply newer_incompatible].
  rewrite (assert_light_valid _ _ Hschema). simpl. by rewrite app_nil_r.
Qed.

(** X10: upgrading in two steps is upgrading in one: for [V2] in the
    lineage of [V3] and a dataset valid at [V2] or an ancestor of it,
    upgrading to [V2] and then to [V3] returns the same dataset as upgrading
    to [V3] at once, after the same invocations. *)
Theorem upgrade_composes (V3 V2 W : Version) (D : gmap string value)
    (copy copy' copy'' : bool) (log : list Version) :
  well_formed V3 -> inherit_contract V3 ->
  V2 ∈ lineage V3 -> W ∈ lineage V2 -> valid_at W D ->
  (D' ← upgrade V2 D copy; upgrade V3 D' copy') log =
  upgrade V3 D copy'' log /\
  exists D3 log', upgrade V3 D copy'' log = (OK D3, log') /\ valid_at V3 D3.
Proof.
  intros Hwf Hcontract HV2 HW Hvalid.
  pose proof HV2 as [n2 Hn2]%lineage_suffix.
  pose proof HW as [n1 Hn1]%lineage_suffix.
  pose proof (well_formed_member _ _ Hwf HV2) as Hwf2.
  pose proof (inherit_contract_member _ _ Hcontract HV2) as Hcontract2.
  assert (lineage V3 = (n2 ++ n1) ++ lineage W) as Hn
    by (by rewrite Hn2, Hn1, app_assoc).
  destruct (inherit_chain V2 n1 W D Hcontract2 Hn1 Hvalid)
    as (D2 & Hrun2 & Hvalid2).
  destruct (inherit_chain V3 n2 V2 D2 Hcontract Hn2 Hvalid2)
    as (D3 & Hrun3 & Hvalid3).
  assert (upgrade V3 D copy'' log =
          (OK D3, (log ++ reverse n1) ++ reverse n2)) as Hdirect.
  { rewrite (upgrade_runs_chain V3 (n2 ++ n1) W) by done.
    rewrite reverse_app, for_each_app. unfold mbind, M_bind.
    by rewrite Hrun2, Hrun3. }
  split; [|by eauto].
  unfold mbind, M_bind.
  rewrite (upgrade_runs_chain V2 n1 W) by done. rewrite Hrun2.
  rewrite (upgrade_runs_chain V3 n2 V2) by done. by rewrite Hrun3.
Qed.

(** ** Merging at the edges *)

(** X11: [merge] with no source returns the target as it is, with light
    assertions whatever the target, with heavy assertions when the target
    adheres to the schema of its exactly compatible version; with heavy
    assertions a target without exactly compatible version, or one that
    does not adhere, makes it raise, an assertion or attribute error. *)
Theorem merge_no_sources (V : Version) (target : gmap string value)
    (copy_target copy_sources : bool) (log : list Version) :
  (LIGHT_ASSERTS = true ->
     merge V target [] copy_target copy_sources log = (OK target, log)) /\
  (forall W, get_exactly_compatible V target = Some W ->
     jsonschema_validate (json W) target = None ->
     merge V target [] copy_target copy_sources log = (OK target, log)) /\
  (LIGHT_ASSERTS = false ->
     forall W err, get_exactly_compatible V target = Some W ->
       jsonschema_validate (json W) target = Some err ->
       merge V target [] copy_target copy_sources log =
       (Raise AssertionError, log)) /\
  (LIGHT_ASSERTS = false -> get_exactly_compatible V target = None ->
     merge V target [] copy_target copy_sources log =
     (Raise (match jsonschema_validate (json V) target with
             | None => AttributeError
             | Some _ => AssertionError
             end), log)).
Proof.
  unfold merge, deepcopy.
  replace (if copy_target then target else target) with target
    by (by destruct copy_target).
  cbn [for_each]. unfold mbind, M_bind, mret, M_ret, lift.
  unfold assert_light, is_valid, validate, is_valid_exactly, validate_exactly.
  split_and!.
  - intros ->. by destruct (get_exactly_compatible V target).
  - intros W -> Hvalid. simpl. rewrite Hvalid. by destruct LIGHT_ASSERTS.
  - intros -> W err -> Hinvalid. simpl. by rewrite Hinvalid.
  - intros -> ->. simpl.
    by destruct (jsonschema_validate (json V) target).
Qed.

(** X12: a source, or with a source at hand a target, that no version of
    the lineage is exactly compatible with makes [merge] raise, a type
    error from [issubclass] unless a heavy assertion fired before; nothing
    is merged and no [_inherit] is invoked. *)
Theorem merge_unresolved_version (V : Version) (target source : gmap string value)
    (rest : list (gmap string value)) (copy_target copy_sources : bool)
    (log : list Version) :
  get_exactly_compatible V target = None \/
  get_exactly_compatible V source = None ->
  exists e,
    merge V target (source :: rest) copy_target copy_sources log =
      (Raise e, log) /\
    (e = TypeError \/ e = AssertionError) /\
    (LIGHT_ASSERTS = true -> e = TypeError).
Proof.
  intros Hnone. unfold merge, deepcopy.
  replace (if copy_target then target else target) with target
    by (by destruct copy_target).
  unfold mbind at 1, M_bind at 1, lift at 1.
  assert (LIGHT_ASSERTS = true -> forall c, assert_light c = OK tt) as Hlight
    by (intros Hl c; unfold assert_light; by rewrite Hl).
  destruct (assert_light_is_valid_cases V target) as [Ht|Ht]; rewrite Ht.
  - unfold mbind at 1, M_bind at 1. rewrite for_each_cons.
    unfold merge_source, deepcopy.
    replace (if copy_sources then source else source) with source
      by (by destruct copy_sources).
    unfold mbind at 1, M_bind at 1, lift at 1.
    destruct (assert_light_is_valid_cases V source) as [Hs|Hs]; rewrite Hs.
    + unfold mbind at 1, M_bind at 1, lift at 1.
      assert (py_issubclass (get_exactly_compatible V source)
                (get_exactly_compatible V target) = Raise TypeError) as ->.
      { destruct Hnone as [-> | ->]; [|done].
        by destruct (get_exactly_compatible V source). }
      exists TypeError. split_and!; [done|by left|done].
    + exists AssertionError. split_and!; [done|by right|].
      intros Hl. rewrite (Hlight Hl) in Hs. done.
  - exists AssertionError. split_and!; [done|by right|].
    intros Hl. rewrite (Hlight Hl) in Ht. done.
Qed.

Lemma merge_obj_lists_frame names target source r :
  merge_obj_lists names target source = OK r ->
  (forall k, k ∉ names \/ source !! k = None -> r !! k = target !! k) /\
  (forall k, is_Some (target !! k) -> is_Some (r !! k)).
Proof.
  revert target. induction names as [|n names IH]; intros target; simpl.
  - by intros [= <-].
  - destruct (source !! n) as [records|] eqn:Hn.
    + destruct (py_add _ records) as [merged|e]; simpl; [|done].
      intros [Hout Hkeep]%IH. split.
      * intros k Hk. assert (n <> k) as Hne.
        { intros <-. destruct Hk as [Hk|Hk]; [|congruence].
          apply Hk, elem_of_cons. by left. }
        rewrite Hout, lookup_insert_ne; [done..|].
        destruct Hk as [Hk|Hk]; [left|by right].
        intros Hin. apply Hk, elem_of_cons. by right.
      * intros k Hk. apply Hkeep. destruct (decide (n = k)) as [->|Hne].
        -- by rewrite lookup_insert_eq.
        -- by rewrite lookup_insert_ne.
    + intros [Hout Hkeep]%IH. split; [|done].
      intros k Hk. apply Hout. destruct Hk as [Hk|Hk]; [left|by right].
      intros Hin. apply Hk, elem_of_cons. by right.
Qed.

Lemma anchor_self V D :
  is_compatible_exactly V D = true -> get_exactly_compatible V D = Some V.
Proof.
  intros HD. unfold get_exactly_compatible. rewrite lineage_unfold.
  simpl. by rewrite HD.
Qed.

Lemma assert_light_valid_self V D :
  valid_at V D -> assert_light (is_valid V D) = OK tt.
Proof.
  intros [HD HvD]. unfold assert_light, is_valid, validate.
  rewrite (anchor_self V D HD). simpl. unfold validate_exactly. rewrite HvD.
  by destruct LIGHT_ASSERTS.
Qed.

Lemma merge_source_same V target source copy_sources log :
  valid_at V target -> valid_at V source ->
  merge_source V copy_sources (target, Some V) source log =
  (match merge_obj_lists (tree V).*1 target source with
   | OK m => OK (m, Some V)
   | Raise e => Raise e
   end, log).
Proof.
  intros Hvt Hvs. unfold merge_source, deepcopy.
  replace (if copy_sources then source else source) with source
    by (by destruct copy_sources).
  unfold mbind at 1, M_bind at 1, lift at 1.
  rewrite (assert_light_valid_self V source Hvs).
  rewrite (anchor_self V source (proj1 Hvs)).
  unfold mbind at 1, M_bind at 1, lift at 1. cbn [py_issubclass].
  assert (issubclass V V = true) as -> by apply issubclass_member, lineage_self.
  unfold mbind, M_bind.
  rewrite (upgrade_at_anchor V target false log Hvt).
  unfold mret, M_ret, lift.
  by destruct (merge_obj_lists (tree V).*1 target source).
Qed.

(** X13: merging a source into a target when both declare the version
    [merge] is called on and adhere to its schema invokes no [_inherit];
    whatever it returns keeps every key of the target, leaves the target's
    value under every key outside the tree (its ["version"] among them) and
    under every key the source has not, and takes nothing from the source
    outside the tree. *)
Theorem merge_same_version_frame (V : Version) (target source r : gmap string value)
    (copy_target copy_sources : bool) (log log' : list Version) :
  valid_at V target -> valid_at V source ->
  merge V target [source] copy_target copy_sources log = (OK r, log') ->
  log' = log /\
  (forall k, k ∉ (tree V).*1 \/ source !! k = None -> r !! k = target !! k) /\
  (forall k, is_Some (target !! k) -> is_Some (r !! k)).
Proof.
  intros Hvt Hvs. unfold merge, deepcopy.
  replace (if copy_target then target else target) with target
    by (by destruct copy_target).
  unfold mbind at 1, M_bind at 1, lift at 1.
  rewrite (assert_light_valid_self V target Hvt).
  rewrite (anchor_self V target (proj1 Hvt)).
  unfold mbind at 1, M_bind at 1.
  rewrite for_each_cons, (merge_source_same V target source) by done.
  destruct (merge_obj_lists (tree V).*1 target source) as [m|e] eqn:Hmerge;
    [|done].
  cbn [for_each]. unfold mret at 1, M_ret at 1.
  unfold mbind, M_bind, lift, mret, M_ret.
  destruct (assert_light (is_valid_exactly V m)) as [[]|e]; [|done].
  intros [= <- <-]. split; [done|].
  by apply merge_obj_lists_frame.
Qed.

Lemma total_length_counted D names :
  total_length D (counted D names) =
  foldr Z.add 0
    ((fun k => if decide (k = "") then 0
               else Z.of_nat (length (records_of D k))) <$> names).
Proof.
  induction names as [|k names IH]; [done|].
  unfold counted. rewrite filter_cons. fold (counted D names).
  rewrite fmap_cons. cbn [foldr]. rewrite <- IH.
  destruct (decide (k = "")) as [->|Hk].
  - rewrite decide_False by (by intros [? _]). lia.
  - destruct (D !! k) as [v|] eqn:Hv.
    + rewrite decide_True by done. done.
    + rewrite decide_False by (by intros [_ [? ?]]).
      rewrite (records_of_absent _ _ Hv). simpl. lia.
Qed.

Lemma total_length_merged names ks target source r :
  (forall k, r !! k = merged_lookup names target source k) ->
  (forall k, k ∈ ks -> k ∈ names) ->
  total_length r (counted r ks) =
  total_length target (counted target ks) +
  total_length source (counted source ks).
Proof.
  intros Hr. rewrite !total_length_counted.
  induction ks as [|k ks IH]; intros Hks; [done|].
  rewrite !fmap_cons. cbn [foldr].
  rewrite IH by (intros k' Hk'; apply Hks, elem_of_cons; by right).
  destruct (decide (k = "")) as [->|Hk]; [lia|].
  assert (records_of r k = records_of target k ++ records_of source k) as ->.
  { unfold records_of at 1. rewrite Hr. unfold merged_lookup.
    case_decide as Hcase; [done|].
    assert (source !! k = None) as Hnone.
    { destruct (source !! k) eqn:Hsk; [|done]. destruct Hcase.
      split; [apply Hks, elem_of_cons; by left|by eexists]. }
    by rewrite (records_of_absent source k Hnone), app_nil_r. }
  rewrite length_app. lia.
Qed.

Lemma count_valid V W D :
  well_formed V -> lists_contract V -> W ∈ lineage V -> valid_at W D ->
  count V D = OK (total_length D (counted D (tree W).*1)).
Proof.
  intros Hwf Hlists HW Hvalid.
  destruct (is_valid_member V W D Hwf HW Hvalid) as [Hanchor Hassert].
  unfold count. rewrite Hassert, Hanchor. simpl.
  rewrite sum_len_lists; [done|].
  intros k v Hk _ Hv.
  destruct (Hlists W D k HW Hvalid Hk) as [Hnone|[l Hl]]; [congruence|].
  exists l. congruence.
Qed.

(** X14: merging loses and invents no object: in a lineage honouring the
    contracts, the count of the dataset [merge] returns for one source is
    the count of the target plus the count of the source, each taken once
    upgraded to the more senior of their two versions. *)
Theorem count_merge_additive (V Wt Ws : Version) (target source : gmap string value)
    (copy_target copy_sources : bool) (log : list Version) :
  well_formed V -> inherit_contract V -> lists_contract V -> merge_closed V ->
  Wt ∈ lineage V -> Ws ∈ lineage V ->
  valid_at Wt target -> valid_at Ws source ->
  exists W t' s' r log' nt ns,
    W = (if issubclass Ws Wt then Ws else Wt) /\
    (forall copy l, exists l', upgrade W target copy l = (OK t', l')) /\
    (forall copy l, exists l', upgrade W source copy l = (OK s', l')) /\
    merge V target [source] copy_target copy_sources log = (OK r, log') /\
    count V t' = OK nt /\ count V s' = OK ns /\
    count V r = OK (nt + ns).
Proof.
  intros Hwf Hcontract Hlists Hclosed HWt HWs Hvt Hvs.
  destruct (merge_source_step V Wt Ws target source copy_sources Hwf
              Hcontract Hlists Hclosed HWt HWs Hvt Hvs)
    as (W & t' & s' & r & HW & HWV & HtW & HsW & Hupt & Hups & Hstep & Hr & Hvr).
  pose proof (well_formed_member _ _ Hwf HWV) as HwfW.
  pose proof (inherit_contract_member _ _ Hcontract HWV) as HcontractW.
  assert (valid_at W t') as Hvt'.
  { destruct (lineage_suffix _ _ HtW) as [n Hn].
    destruct (upgrade_from_anchor W n Wt target HwfW HcontractW Hn Hvt)
      as (t2 & Hup2 & Hv2).
    destruct (Hupt false []) as [l' Hl']. rewrite Hup2 in Hl'.
    by injection Hl' as -> _. }
  assert (valid_at W s') as Hvs'.
  { destruct (lineage_suffix _ _ HsW) as [n Hn].
    destruct (upgrade_from_anchor W n Ws source HwfW HcontractW Hn Hvs)
      as (s2 & Hup2 & Hv2).
    destruct (Hups false []) as [l' Hl']. rewrite Hup2 in Hl'.
    by injection Hl' as -> _. }
  destruct (Hstep log) as [log' Hlog'].
  exists W, t', s', r, log', (total_length t' (counted t' (tree W).*1)),
    (total_length s' (counted s' (tree W).*1)).
  split_and!; [done..| | | |].
  - rewrite (merge_unfold V Wt) by done.
    rewrite for_each_cons, Hlog'. cbn [for_each].
    unfold mret at 1, M_ret at 1. unfold mbind, M_bind, lift, mret, M_ret.
    destruct Hvr as [_ Hschema]. by rewrite (assert_light_valid _ _ Hschema).
  - by apply (count_valid V W).
  - by apply (count_valid V W).
  - rewrite (count_valid V W r) by done. f_equal.
    by apply (total_length_merged (tree W).*1).
Qed.

(** X15: in a lineage as the metaclass builds it the major numbers are
    positive and order the versions as [<] does: none is shared by two
    versions. *)
Theorem majors_follow_order (V A B : Version) :
  well_formed V -> A ∈ lineage V -> B ∈ lineage V ->
  0 < major A /\
  (major A < major B <-> __lt__ A B = OK true) /\
  (major A = major B -> A = B).
Proof.
  intros Hwf HA HB.
  assert (forall X Y, X ∈ lineage V -> Y ∈ lineage V ->
                      __lt__ X Y = OK true -> major X < major Y) as Hlt.
  { intros X Y HX HY HXY. rewrite <- gt_lt_swap in HXY.
    by apply (gt_majors V Y X). }
  split_and!.
  - destruct Hwf as (Hinit & _).
    destruct (Hinit A HA) as (_ & Hgt & _).
    destruct (base A) as [b|] eqn:Hb; simpl in Hgt; [|lia].
    assert (b ∈ lineage V) as Hbv.
    { apply (lineage_trans V A); [done|].
      rewrite (lineage_base _ _ Hb), elem_of_cons. right. apply lineage_self. }
    destruct (Hinit b Hbv) as (Hnonneg & _). lia.
  - split; [|by apply Hlt].
    intros Hmajor.
    destruct (lineage_trichotomy V A B Hwf HA HB) as [H|[->|H]]; [done|lia|].
    rewrite gt_lt_swap in H. apply Hlt in H; [lia|done..].
  - intros Hmajor.
    destruct (lineage_trichotomy V A B Hwf HA HB) as [H|[->|H]]; [|done|].
    + apply Hlt in H; [lia|done..].
    + rewrite gt_lt_swap in H. apply Hlt in H; [lia|done..].
Qed.

End Engine.

(** * The engine on the small lineage *)

Lemma toy_schema_valid title (d : gmap string value) :
  Toy.jsonschema_validate (Toy.schema title true) d = None <->
  Toy.is_array_or_absent (d !! "checkouts") = true /\
  Toy.is_array_or_absent (d !! "builds") = true /\
  dom d ⊆ list_to_set ["version"; "checkouts"; "builds"].
Proof.
  unfold Toy.jsonschema_validate, Toy.schema.
  cbn [Toy.assoc String.eqb Ascii.eqb Bool.eqb app Toy.names_of omap
       list_omap forallb andb negb].
  destruct (Toy.is_array_or_absent (d !! "checkouts")),
    (Toy.is_array_or_absent (d !! "builds")); simpl;
    try (split; [done|by intros (? & ? & ?)]).
  case_bool_decide; simpl; [by split|].
  split; [done|by intros (_ & _ & ?)].
Qed.

Lemma toy_array_or_absent (v : option value) :
  Toy.is_array_or_absent v = true <-> v = None \/ exists l, v = Some (VList l).
Proof.
  destruct v as [[]|]; simpl; split; try done; eauto;
    intros [?|[? ?]]; done.
Qed.

Lemma toy_get_version_stamp major' minor' (d : gmap string value) :
  Toy.get_version (<["version" := Toy.version_of major' minor']> d) =
  Some (major', minor').
Proof. unfold Toy.get_version. by rewrite lookup_insert_eq. Qed.

Lemma toy_lineage W :
  W ∈ lineage Toy.V3 -> W = Toy.V3 \/ W = Toy.V2 \/ W = Toy.V1.
Proof.
  cbn [lineage Toy.V3 Toy.V2 Toy.V1 base]. rewrite !elem_of_cons, elem_of_nil.
  tauto.
Qed.

Lemma toy_valid_at W (d : gmap string value) :
  W ∈ lineage Toy.V3 ->
  valid_at Toy.jsonschema_validate W d <->
  is_compatible_exactly W d = true /\
  Toy.is_array_or_absent (d !! "checkouts") = true /\
  Toy.is_array_or_absent (d !! "builds") = true /\
  dom d ⊆ list_to_set ["version"; "checkouts"; "builds"].
Proof.
  unfold valid_at.
  intros [-> | [-> | ->]]%toy_lineage; cbn [json Toy.V3 Toy.V2 Toy.V1];
    by rewrite toy_schema_valid.
Qed.

Lemma toy_well_formed : well_formed Toy.V3.
Proof.
  split_and!.
  - intros W [-> | [-> | ->]]%toy_lineage; unfold MetaVersion_init; simpl;
      (split_and!; [lia|lia|lia|by eexists|done|]);
      apply elem_of_cons; by left.
  - compute_done.
  - intros W [-> | [-> | ->]]%toy_lineage; compute_done.
  - by intros W [-> | [-> | ->]]%toy_lineage.
Qed.

Lemma toy_members :
  Toy.V3 ∈ lineage Toy.V3 /\ Toy.V2 ∈ lineage Toy.V3 /\ Toy.V1 ∈ lineage Toy.V3.
Proof.
  cbn [lineage Toy.V3 Toy.V2 Toy.V1 base]. rewrite !elem_of_cons. tauto.
Qed.

Lemma toy_stamp_valid W P major' minor' (d : gmap string value) :
  W ∈ lineage Toy.V3 -> P ∈ lineage Toy.V3 ->
  _get_version W = Toy.get_version ->
  major' = major W -> minor' <= minor W ->
  valid_at Toy.jsonschema_validate P d ->
  valid_at Toy.jsonschema_validate W
    (<["version" := Toy.version_of major' minor']> d).
Proof.
  intros HW HP Hget -> Hminor.
  rewrite (toy_valid_at W) , (toy_valid_at P) by done.
  intros (_ & Hc & Hb & Hdom). split_and!.
  - unfold is_compatible_exactly. rewrite Hget, toy_get_version_stamp.
    apply andb_true_iff. split; [apply Z.eqb_refl|by apply Z.leb_le].
  - by rewrite lookup_insert_ne.
  - by rewrite lookup_insert_ne.
  - rewrite dom_insert.
    intros k [->%elem_of_singleton | Hk]%elem_of_union; [|by apply Hdom].
    rewrite elem_of_list_to_set, elem_of_cons. by left.
Qed.

Lemma toy_inherit_contract : inherit_contract Toy.jsonschema_validate Toy.V3.
Proof.
  intros W P d HW Hbase Hvalid.
  pose proof HW as [-> | [-> | ->]]%toy_lineage; simpl in Hbase;
    [injection Hbase as <-|injection Hbase as <-|done].
  - eexists. split; [done|].
    apply (toy_stamp_valid Toy.V3 Toy.V2);
      [apply toy_members|apply toy_members|done|done|done|done].
  - eexists. split; [done|].
    apply (toy_stamp_valid Toy.V2 Toy.V1);
      [apply toy_members|apply toy_members|done|done|simpl; lia|done].
Qed.

Lemma toy_lists_contract : lists_contract Toy.jsonschema_validate Toy.V3.
Proof.
  intros W d k HW Hvalid Hk.
  apply (toy_valid_at W d HW) in Hvalid as (_ & Hc & Hb & Hdom).
  assert ((tree W).*1 = [""; "checkouts"; "builds"]) as Htree
    by (by destruct (toy_lineage W HW) as [-> | [-> | ->]]).
  rewrite Htree, !elem_of_cons, elem_of_nil in Hk.
  destruct Hk as [-> | [-> | [-> | []]]].
  - left. apply not_elem_of_dom. intros Hin%Hdom. revert Hin.
    rewrite elem_of_list_to_set, !elem_of_cons, elem_of_nil.
    intros [? | [? | [? | []]]]; done.
  - by apply toy_array_or_absent.
  - by apply toy_array_or_absent.
Qed.

Lemma toy_merge_closed : merge_closed Toy.jsonschema_validate Toy.V3.
Proof.
  intros W t s r HW Hvt Hvs Hmerge.
  assert ((tree W).*1 = [""; "checkouts"; "builds"]) as Htree
    by (by destruct (toy_lineage W HW) as [-> | [-> | ->]]).
  assert (_get_version W = Toy.get_version) as Hget
    by (by destruct (toy_lineage W HW) as [-> | [-> | ->]]).
  destruct (merge_obj_lists_lookup (tree W).*1 t s) as (r' & Hmerge' & Hr).
  { rewrite Htree. compute_done. }
  { intros k Hk. split; by eapply toy_lists_contract. }
  rewrite Hmerge in Hmerge'. injection Hmerge' as <-.
  apply (toy_valid_at W _ HW) in Hvt as (Hcompat & Hc & Hb & Hdomt).
  apply (toy_valid_at W _ HW) in Hvs as (_ & Hcs & Hbs & Hdoms).
  apply (toy_valid_at W _ HW). split_and!.
  - unfold is_compatible_exactly in *. rewrite Hget in *.
    unfold Toy.get_version in *. rewrite Hr. unfold merged_lookup.
    rewrite decide_False; [done|]. rewrite Htree, !elem_of_cons, elem_of_nil.
    intros [[? | [? | [? | []]]] _]; done.
  - rewrite Hr. unfold merged_lookup. by case_decide.
  - rewrite Hr. unfold merged_lookup. by case_decide.
  - intros k [v Hv]%elem_of_dom. rewrite Hr in Hv. unfold merged_lookup in Hv.
    case_decide as Hcase.
    + apply Hdoms, elem_of_dom. by destruct Hcase.
    + apply Hdomt, elem_of_dom. by eexists.
Qed.

Lemma toy_data1_valid : valid_at Toy.jsonschema_validate Toy.V1 Toy.data1.
Proof. split; vm_compute; reflexivity. Qed.

Lemma toy_data2_valid : valid_at Toy.jsonschema_validate Toy.V2 Toy.data2.
Proof. split; vm_compute; reflexivity. Qed.

Example siblings_incomparable :
  __le__ Toy.V2 Toy.V2' = Raise NotImplementedError /\
  __gt__ Toy.V2' Toy.V2 = Raise NotImplementedError /\
  __le__ Toy.V1 Toy.V2' = OK true /\
  __lt__ Toy.V3 Toy.V1 = OK false.
Proof. by vm_compute. Qed.

Lemma validate_resolves_witness :
  validate Toy.jsonschema_validate Toy.V3 Toy.unparseable =
  Raise (ValidationError {| message := "is not of type 'array'"; path := [] |}).
Proof.
  destruct (validate_resolves Toy.jsonschema_validate Toy.V3 Toy.unparseable)
    as (_ & Hnone & _).
  destruct (Hnone eq_refl) as [-> _]. reflexivity.
Defined.

Lemma count_partial_witness :
  count false Toy.jsonschema_validate Toy.V3 Toy.data2 = OK 3.
Proof.
  destruct (count_partial false Toy.jsonschema_validate Toy.V3 Toy.data2)
    as [_ Hsome].
  rewrite (Hsome Toy.V2); [reflexivity..|].
  intros k v Hk _ Hv. simpl in Hk.
  rewrite !elem_of_cons, elem_of_nil in Hk.
  destruct Hk as [-> | [-> | [-> | []]]]; vm_compute in Hv;
    [discriminate|injection Hv as <-; eauto..].
Defined.

(** With an exactly compatible version at hand [count] still returns no
    number for a dataset that is not valid: the assertion fires, or, with
    light assertions, [len] is taken of what has none. *)
Lemma count_compatible_no_number :
  get_exactly_compatible Toy.V3 Toy.unsized = Some Toy.V1 /\
  count false Toy.jsonschema_validate Toy.V3 Toy.unsized = Raise AssertionError /\
  count true Toy.jsonschema_validate Toy.V3 Toy.unsized = Raise TypeError.
Proof. by vm_compute. Qed.

Lemma upgrade_without_anchor_witness :
  upgrade false Toy.jsonschema_validate Toy.V3 Toy.unparseable true [] =
  (Raise (ValidationError {| message := "is not of type 'array'"; path := [] |}),
   []).
Proof.
  rewrite (upgrade_without_anchor false Toy.jsonschema_validate Toy.V3
             Toy.unparseable true []); reflexivity.
Defined.

(** A dataset declaring no version that the target's schema lets through:
    [upgrade] finds no anchor and fails with the bare assertion error. *)
Lemma upgrade_unanchored_assertion :
  get_exactly_compatible Toy.V3 ∅ = None /\
  upgrade false Toy.jsonschema_validate Toy.V3 ∅ true [] =
    (Raise AssertionError, []) /\
  ~ exists err,
      fst (upgrade false Toy.jsonschema_validate Toy.V3 ∅ true []) =
      Raise (ValidationError err).
Proof.
  split_and!; [by vm_compute..|]. intros [err Herr].
  vm_compute in Herr. discriminate.
Qed.

Lemma upgrade_valid_unchanged_witness :
  upgrade false Toy.jsonschema_validate Toy.V1 Toy.data1 true [] =
  (OK Toy.data1, []).
Proof.
  apply (upgrade_valid_unchanged false Toy.jsonschema_validate Toy.V1
           Toy.data1 true []).
  split; vm_compute; reflexivity.
Defined.

Lemma upgrade_inherits_in_order_witness :
  exists newer D2,
    upgrade false Toy.jsonschema_validate Toy.V3 Toy.data1 true [] =
      (OK D2, [] ++ reverse newer) /\
    valid_at Toy.jsonschema_validate Toy.V3 D2 /\
    lineage Toy.V3 = newer ++ lineage Toy.V1 /\
    (forall W, W ∈ newer <-> W ∈ lineage Toy.V3 /\ __gt__ W Toy.V1 = OK true) /\
    NoDup (reverse newer) /\
    StronglySorted (fun a b => __lt__ a b = OK true) (reverse newer) /\
    last (reverse newer) = Some Toy.V3.
Proof.
  apply (upgrade_inherits_in_order false Toy.jsonschema_validate Toy.V3 Toy.V1
           Toy.data1 true []).
  - exact toy_well_formed.
  - exact toy_inherit_contract.
  - apply toy_members.
  - reflexivity.
  - split; vm_compute; reflexivity.
Defined.

Example upgrade_V1_to_V3 :
  upgrade false Toy.jsonschema_validate Toy.V3 Toy.data1 true [] =
  (OK (<["version" := Toy.version_of 3 0]> Toy.data1), [Toy.V2; Toy.V3]).
Proof. by vm_compute. Qed.

Lemma upgrade_idempotent_witness :
  (D' ← upgrade false Toy.jsonschema_validate Toy.V3 Toy.data1 true;
   upgrade false Toy.jsonschema_validate Toy.V3 D' true) [] =
  upgrade false Toy.jsonschema_validate Toy.V3 Toy.data1 true [] /\
  exists D' log',
    upgrade false Toy.jsonschema_validate Toy.V3 Toy.data1 true [] =
      (OK D', log') /\
    upgrade false Toy.jsonschema_validate Toy.V3 D' true log' = (OK D', log').
Proof.
  apply (upgrade_idempotent false Toy.jsonschema_validate Toy.V3 Toy.V1
           Toy.data1 true true []).
  - exact toy_well_formed.
  - exact toy_inherit_contract.
  - apply toy_members.
  - split; vm_compute; reflexivity.
Defined.

Lemma merge_appends_witness :
  exists W r,
    (forall log, exists log',
       merge false Toy.jsonschema_validate Toy.V3 Toy.data1
         [Toy.data2; Toy.data1] true true log = (OK r, log')) /\
    valid_at Toy.jsonschema_validate W r /\
    (exists d, d ∈ Toy.data1 :: [Toy.data2; Toy.data1] /\
               get_exactly_compatible Toy.V3 d = Some W) /\
    (forall d, d ∈ Toy.data1 :: [Toy.data2; Toy.data1] ->
       exists Wd, get_exactly_compatible Toy.V3 d = Some Wd /\
                  __ge__ W Wd = OK true).
Proof.
  refine (proj1 (merge_appends false Toy.jsonschema_validate Toy.V3 Toy.data1
                   [Toy.data2; Toy.data1] toy_well_formed
                   toy_inherit_contract toy_lists_contract toy_merge_closed _)).
  intros d Hd. rewrite !elem_of_cons, elem_of_nil in Hd.
  destruct Hd as [-> | [-> | [-> | []]]].
  - exists Toy.V1. split; [apply toy_members|split; vm_compute; reflexivity].
  - exists Toy.V2. split; [apply toy_members|split; vm_compute; reflexivity].
  - exists Toy.V1. split; [apply toy_members|split; vm_compute; reflexivity].
Defined.

Example merge_three :
  merge false Toy.jsonschema_validate Toy.V3 Toy.data1 [Toy.data2; Toy.data1]
    true true [] =
  (OK {[ "version" := Toy.version_of 2 1;
         "checkouts" := VList [Toy.record "c1"; Toy.record "c2"; Toy.record "c1"];
         "builds" := VList [Toy.record "b1"; Toy.record "b2"] ]},
   [Toy.V2; Toy.V2]).
Proof. by vm_compute. Qed.

(** C2, at an input where the code departs from it: [merge] does not leave
    the root key [""] of the tree out, as [count] does; target and source
    are valid at the version, the source holds a list under [""], and that
    list ends up in the merged dataset, whose other lists are appended as
    the claim says. *)
Lemma merge_iterates_root_key :
  valid_at Toy.jsonschema_validate Toy.W1 Toy.data1 /\
  valid_at Toy.jsonschema_validate Toy.W1 Toy.rooted /\
  "" ∈ (tree Toy.W1).*1 /\
  Toy.data1 !! "" = None /\
  merge false Toy.jsonschema_validate Toy.W1 Toy.data1 [Toy.rooted] true true [] =
  (OK {[ "version" := Toy.version_of 1 0;
         "" := VList [Toy.record "r"];
         "checkouts" := VList [Toy.record "c1"; Toy.record "c3"] ]}, []).
Proof.
  split_and!; [split; by vm_compute..| |by vm_compute|by vm_compute].
  apply elem_of_cons. by left.
Qed.

(** ** The further properties on the small lineage *)

Lemma exactly_compatible_unique_witness : Toy.V2 = Toy.V2.
Proof.
  apply (exactly_compatible_unique Toy.V3 Toy.V2 Toy.V2 Toy.data2).
  - exact toy_well_formed.
  - apply toy_members.
  - apply toy_members.
  - reflexivity.
  - reflexivity.
Defined.

Lemma version_order_laws_witness :
  __le__ Toy.V1 Toy.V1 = OK true /\
  (exists b, __le__ Toy.V1 Toy.V2 = OK b) /\
  (__le__ Toy.V1 Toy.V2 = OK true -> __le__ Toy.V2 Toy.V1 = OK true ->
   Toy.V1 = Toy.V2) /\
  (__le__ Toy.V1 Toy.V2 = OK true -> __le__ Toy.V2 Toy.V3 = OK true ->
   __le__ Toy.V1 Toy.V3 = OK true) /\
  (__lt__ Toy.V1 Toy.V2 = OK true \/ Toy.V1 = Toy.V2 \/
   __gt__ Toy.V1 Toy.V2 = OK true).
Proof.
  apply (version_order_laws Toy.V3 Toy.V1 Toy.V2 Toy.V3).
  - exact toy_well_formed.
  - apply toy_members.
  - apply toy_members.
  - apply toy_members.
Defined.

Lemma majors_follow_order_witness :
  0 < major Toy.V1 /\
  (major Toy.V1 < major Toy.V3 <-> __lt__ Toy.V1 Toy.V3 = OK true) /\
  (major Toy.V1 = major Toy.V3 -> Toy.V1 = Toy.V3).
Proof.
  apply (majors_follow_order Toy.V3 Toy.V1 Toy.V3).
  - exact toy_well_formed.
  - apply toy_members.
  - apply toy_members.
Defined.

Lemma count_nonneg_witness : 0 <= 3.
Proof.
  apply (count_nonneg false Toy.jsonschema_validate Toy.V3 Toy.data2 3).
  reflexivity.
Defined.

Lemma new_is_empty_witness :
  let d : gmap string value := {[ "version" := Toy.version_of 1 0 ]} in
  d = {[ "version" := VDict [("major", VInt (major Toy.V1));
                             ("minor", VInt (minor Toy.V1))] ]} /\
  (is_compatible_exactly Toy.V1 d = true -> "version" ∉ (tree Toy.V1).*1 ->
   get_exactly_compatible Toy.V1 d = Some Toy.V1 /\
   count false Toy.jsonschema_validate Toy.V1 d = OK 0 /\
   (forall copy_target copy_sources log,
      merge false Toy.jsonschema_validate Toy.V1 d [] copy_target
        copy_sources log = (OK d, log)) /\
   (forall copy log,
      upgrade false Toy.jsonschema_validate Toy.V1 d copy log = (OK d, log))).
Proof.
  apply (new_is_empty false Toy.jsonschema_validate Toy.V1).
  reflexivity.
Defined.

Lemma upgrade_declared_target_witness :
  upgrade false Toy.jsonschema_validate Toy.V1 Toy.unsized true [] =
    (Raise AssertionError, []) /\
  upgrade true Toy.jsonschema_validate Toy.V1 Toy.unsized true [] =
    (OK Toy.unsized, []).
Proof.
  split.
  - rewrite (upgrade_declared_target false Toy.jsonschema_validate Toy.V1
               Toy.unsized true []); reflexivity.
  - rewrite (upgrade_declared_target true Toy.jsonschema_validate Toy.V1
               Toy.unsized true []); reflexivity.
Defined.

Lemma upgrade_composes_witness :
  (D' ← upgrade false Toy.jsonschema_validate Toy.V2 Toy.data1 true;
   upgrade false Toy.jsonschema_validate Toy.V3 D' true) [] =
  upgrade false Toy.jsonschema_validate Toy.V3 Toy.data1 true [] /\
  exists D3 log',
    upgrade false Toy.jsonschema_validate Toy.V3 Toy.data1 true [] =
      (OK D3, log') /\
    valid_at Toy.jsonschema_validate Toy.V3 D3.
Proof.
  apply (upgrade_composes false Toy.jsonschema_validate Toy.V3 Toy.V2 Toy.V1
           Toy.data1 true true true []).
  - exact toy_well_formed.
  - exact toy_inherit_contract.
  - apply toy_members.
  - cbn [lineage Toy.V2 Toy.V1 base]. rewrite !elem_of_cons. tauto.
  - split; vm_compute; reflexivity.
Defined.

Lemma merge_unresolved_version_witness :
  exists e,
    merge false Toy.jsonschema_validate Toy.V3 Toy.data1 [∅; Toy.data2]
      true true [] = (Raise e, []) /\
    (e = TypeError \/ e = AssertionError) /\
    (false = true -> e = TypeError).
Proof.
  apply (merge_unresolved_version false Toy.jsonschema_validate Toy.V3
           Toy.data1 ∅ [Toy.data2] true true []).
  right. reflexivity.
Defined.

Lemma merge_same_version_frame_witness :
  let r : gmap string value :=
    {[ "version" := Toy.version_of 1 0;
       "checkouts" := VList [Toy.record "c1"; Toy.record "c1"] ]} in
  ([] : list Version) = [] /\
  (forall k, k ∉ (tree Toy.V1).*1 \/ Toy.data1 !! k = None ->
             r !! k = Toy.data1 !! k) /\
  (forall k, is_Some (Toy.data1 !! k) -> is_Some (r !! k)).
Proof.
  apply (merge_same_version_frame false Toy.jsonschema_validate Toy.V1
           Toy.data1 Toy.data1 _ true true [] []).
  - split; vm_compute; reflexivity.
  - split; vm_compute; reflexivity.
  - vm_compute. reflexivity.
Defined.

Lemma count_merge_additive_witness :
  exists W t' s' r log' nt ns,
    W = (if issubclass Toy.V2 Toy.V1 then Toy.V2 else Toy.V1) /\
    (forall copy l, exists l',
       upgrade false Toy.jsonschema_validate W Toy.data1 copy l = (OK t', l')) /\
    (forall copy l, exists l',
       upgrade false Toy.jsonschema_validate W Toy.data2 copy l = (OK s', l')) /\
    merge false Toy.jsonschema_validate Toy.V3 Toy.data1 [Toy.data2] true true
      [] = (OK r, log') /\
    count false Toy.jsonschema_validate Toy.V3 t' = OK nt /\
    count false Toy.jsonschema_validate Toy.V3 s' = OK ns /\
    count false Toy.jsonschema_validate Toy.V3 r = OK (nt + ns).
Proof.
  apply (count_merge_additive false Toy.jsonschema_validate Toy.V3 Toy.V1
           Toy.V2 Toy.data1 Toy.data2 true true []).
  - exact toy_well_formed.
  - exact toy_inherit_contract.
  - exact toy_lists_contract.
  - exact toy_merge_closed.
  - apply toy_members.
  - apply toy_members.
  - split; vm_compute; reflexivity.
  - split; vm_compute; reflexivity.
Defined.

Example count_merged :
  count false Toy.jsonschema_validate Toy.V3 Toy.data1 = OK 1 /\
  count false Toy.jsonschema_validate Toy.V3 Toy.data2 = OK 3 /\
  (r ← fst (merge false Toy.jsonschema_validate Toy.V3 Toy.data1 [Toy.data2]
              true true []);
   count false Toy.jsonschema_validate Toy.V3 r) = OK 4.
Proof. by vm_compute. Qed.

Example len_counts_code_points :
  py_len (VStr "é") = OK 1 /\ py_len (VStr "abc") = OK 3 /\
  py_len (VInt 3) = Raise TypeError.
Proof. by vm_compute. Qed.
